(** * Loop client: liquidity manager, hop-hint selection, loop in command

    A shallow embedding of [liquidity/liquidity.go] (the liquidity
    [Manager]: parameter store, eligibility filter, swap suggestions), of
    the hop-hint selection ([IsPublicNode], [chanCanBeHopHint],
    [SelectHopHints]) and of the loop in command ([loopIn]) of the loop
    client, with the properties of its specification stated and settled
    against that embedding. *)

From stdpp Require Import gmap strings list fin_maps.
From Stdlib Require Import ZArith Lia Strings.Byte.

Local Open Scope Z_scope.

(** ** Go values shared by both packages *)

Module Go.

(** Fixed-width integers are carried as [Z]; every conversion and every
    arithmetic operation that can leave the range writes its wrap-around
    out. *)
Definition wrap_int64 (z : Z) : Z := (z + 2 ^ 63) mod 2 ^ 64 - 2 ^ 63.
Definition to_uint64 (z : Z) : Z := z mod 2 ^ 64.
Definition to_uint32 (z : Z) : Z := z mod 2 ^ 32.
Definition to_uint16 (z : Z) : Z := z mod 2 ^ 16.

Definition min_int64 : Z := - 2 ^ 63.
Definition max_int64 : Z := 2 ^ 63 - 1.

(** Values of Go's [error] interface that the two packages produce or
    pass on. [ErrExternal] stands for an error made elsewhere (lnd, the
    swap server, the database, btcec, a rule's own validation). *)
Inductive error : Type :=
| ErrZeroChannelID
| ErrInvalidSweepFeeRateLimit
| ErrInvalidRule (channel : Z) (cause : error)
| ErrConfTarget (minConfs : Z)
| ErrExternal (msg : string).

(** A Go result pair [(v, err)]: either a value with a nil error, or the
    zero value with an error. *)
Inductive result (A : Type) : Type :=
| Ok (a : A)
| Fail (e : error).
Global Arguments Ok {A} a.
Global Arguments Fail {A} e.

(** A call either returns or panics (nil dereference, [make] with a
    negative capacity, write to a nil map). *)
Inductive outcome (A : Type) : Type :=
| Ret (a : A)
| Panic.
Global Arguments Ret {A} a.
Global Arguments Panic {A}.

(** What one pass through a loop body does to the enclosing function. *)
Inductive control (S R : Type) : Type :=
| Continue (s : S)
| Break (s : S)
| Return (r : R)
| Panicked.
Global Arguments Continue {S R} s.
Global Arguments Break {S R} s.
Global Arguments Return {S R} r.
Global Arguments Panicked {S R}.

(** [route.Vertex] is a [[33]byte]: the serialized public key of a node. *)
Definition Vertex : Type := list byte.

#[global] Instance byte_eq_dec : EqDecision byte := Byte.byte_eq_dec.

#[global] Instance byte_countable : Countable byte :=
  inj_countable Byte.to_N Byte.of_N Byte.of_to_N.

(** [time.Time] as nanoseconds since the epoch, [time.Duration] as the
    int64 number of nanoseconds it is. *)
Definition Time : Type := Z.
Definition Time_Add (t : Time) (d : Z) : Time := t + d.
Definition Time_After (t u : Time) : bool := u <? t.

End Go.

Import Go.

(** ** lndclient values *)

Module Lndclient.

(** [lndclient.RoutingPolicy], the fields the selection reads. *)
Record RoutingPolicy : Type := {
  TimeLockDelta : Z;      (* uint32 *)
  FeeBaseMsat : Z;        (* int64 *)
  FeeRateMilliMsat : Z    (* int64 *)
}.

(** [lndclient.ChannelEdge]; the policies are pointers and may be nil. *)
Record ChannelEdge : Type := {
  EdgeChannelID : Z;
  ChannelPoint : string;
  Node1 : Vertex;
  Node2 : Vertex;
  Node1Policy : option RoutingPolicy;
  Node2Policy : option RoutingPolicy
}.

(** [lndclient.ChannelInfo], the fields the two packages read. *)
Record ChannelInfo : Type := {
  ChannelID : Z;          (* uint64 *)
  PubKeyBytes : Vertex;
  Capacity : Z;           (* btcutil.Amount, int64 *)
  LocalBalance : Z;
  RemoteBalance : Z;
  Private : bool
}.

End Lndclient.

Import Lndclient.

(** ** Hop-hint selection *)

Module HopHints.

(** The lnd client as seen during one selection. [ListChannels] is asked
    once. [GetChanInfo n id] is the answer to the call that comes after
    [n] earlier [GetChanInfo] calls: two calls for one channel need not
    agree. On an error lndclient returns a nil edge. *)
Record LndClient : Type := {
  ListChannels : result (list ChannelInfo);
  GetChanInfo : nat -> Z -> result ChannelEdge
}.

(** [btcec.ParsePubKey] with the curve fixed to S256. *)
Class Btcec : Type := {
  PublicKey : Type;
  ParsePubKey : Vertex -> result PublicKey
}.

Section Selection.
Context `{Btcec}.

(** [zpay32.HopHint]. *)
Record HopHint : Type := {
  NodeID : PublicKey;
  HintChannelID : Z;
  FeeBaseMSat : Z;                  (* uint32 *)
  FeeProportionalMillionths : Z;    (* uint32 *)
  CLTVExpiryDelta : Z               (* uint16 *)
}.

Fixpoint IsPublicNode (channels : list ChannelInfo) (pubKey : Vertex) : bool :=
  match channels with
  | [] => true
  | c :: rest =>
      if bool_decide (PubKeyBytes c = pubKey) && Private c then false
      else IsPublicNode rest pubKey
  end.

Variable lnd : LndClient.

(** [FetchChannelEdgesByID] at call index [n]. When [GetChanInfo] fails
    the edge is nil and [chanInfo.Node1] dereferences it. *)
Definition FetchChannelEdgesByID (n : nat) (chanID : Z)
  : outcome (Vertex * option RoutingPolicy * option RoutingPolicy * option error) :=
  match GetChanInfo lnd n chanID with
  | Ok chanInfo => Ret (Node1 chanInfo, Node1Policy chanInfo, Node2Policy chanInfo, None)
  | Fail _ => Panic
  end.

(** [chanCanBeHopHint]; the last component is the call index after it.
    The [chanInfo] argument is not read. *)
Definition chanCanBeHopHint (n : nat) (channels : list ChannelInfo)
    (channel : ChannelInfo) (chanInfo : option ChannelEdge)
  : outcome (option RoutingPolicy * bool * nat) :=
  if negb (IsPublicNode channels (PubKeyBytes channel)) then Ret (None, false, n)
  else
    match FetchChannelEdgesByID n (ChannelID channel) with
    | Panic => Panic
    | Ret (serializedPubKey, p1, p2, Some _) => Ret (None, false, S n)
    | Ret (serializedPubKey, p1, p2, None) =>
        let remotePolicy :=
          if bool_decide (PubKeyBytes channel = serializedPubKey) then p1 else p2 in
        Ret (remotePolicy, true, S n)
    end.

(** The local variables of [SelectHopHints] that the two loops update,
    and the number of [GetChanInfo] calls made so far. *)
Record locals : Type := {
  hopHints : list (list HopHint);
  hopHintChans : gset string;
  totalHintBandwidth : Z;
  calls : nat
}.

Definition with_calls (s : locals) (n : nat) : locals :=
  {| hopHints := hopHints s; hopHintChans := hopHintChans s;
     totalHintBandwidth := totalHintBandwidth s; calls := n |}.

(** The hint both passes build: the fee fields are read from
    [chanInfo.Node2Policy]. *)
Definition makeHint (nodeID : PublicKey) (channel : ChannelInfo)
    (node2Policy : RoutingPolicy) : HopHint :=
  {| NodeID := nodeID;
     HintChannelID := ChannelID channel;
     FeeBaseMSat := to_uint32 (FeeBaseMsat node2Policy);
     FeeProportionalMillionths := to_uint32 (FeeRateMilliMsat node2Policy);
     CLTVExpiryDelta := to_uint16 (TimeLockDelta node2Policy) |}.

Variable amtMSat : Z.
Variable numMaxHophints : Z.
Variable include_nodes : option (gset Vertex).
Variable openChannels : list ChannelInfo.

Definition excluded (channel : ChannelInfo) : bool :=
  match include_nodes with
  | None => false
  | Some nodes => negb (bool_decide (PubKeyBytes channel ∈ nodes))
  end.

(** Body of the first loop. Its [chanInfo] is declared with [:=] inside
    the body, so it is a variable of the body. *)
Definition pass1_body (channel : ChannelInfo) (s : locals)
  : control locals (result (list (list HopHint))) :=
  if RemoteBalance channel <? amtMSat then Continue s
  else if excluded channel then Continue s
  else
    match GetChanInfo lnd (calls s) (ChannelID channel) with
    | Fail e => Return (Fail e)
    | Ok chanInfo =>
        match chanCanBeHopHint (S (calls s)) openChannels channel (Some chanInfo) with
        | Panic => Panicked
        | Ret (edgePolicy, canBeHopHint, n) =>
            if bool_decide (edgePolicy = None) || negb canBeHopHint
            then Continue (with_calls s n)
            else
              match GetChanInfo lnd n (ChannelID channel) with
              | Fail e => Return (Fail e)
              | Ok chanInfo =>
                  match ParsePubKey (PubKeyBytes channel) with
                  | Fail e => Return (Fail e)
                  | Ok nodeID =>
                      match Node2Policy chanInfo with
                      | None => Panicked
                      | Some node2Policy =>
                          Continue
                            {| hopHints :=
                                 hopHints s ++ [[makeHint nodeID channel node2Policy]];
                               hopHintChans := {[ChannelPoint chanInfo]} ∪ hopHintChans s;
                               totalHintBandwidth :=
                                 wrap_int64 (totalHintBandwidth s + RemoteBalance channel);
                               calls := S n |}
                      end
                  end
              end
        end
    end.

Fixpoint pass1 (channels : list ChannelInfo) (s : locals)
  : control locals (result (list (list HopHint))) :=
  match channels with
  | [] => Continue s
  | channel :: rest =>
      match pass1_body channel s with
      | Continue s' => pass1 rest s'
      | other => other
      end
  end.

Definition hopHintFactor : Z := 2.

(** Body of the second loop. [chanInfo] is the variable declared before
    the first loop. *)
Definition pass2_body (chanInfo : option ChannelEdge) (channel : ChannelInfo)
    (s : locals) : control locals (result (list (list HopHint))) :=
  if (wrap_int64 (amtMSat * hopHintFactor) <? totalHintBandwidth s)
     || (numMaxHophints <=? Z.of_nat (length (hopHints s)))
  then Break s
  else
    match chanInfo with
    | None => Panicked
    | Some edge =>
        if bool_decide (ChannelPoint edge ∈ hopHintChans s) then Continue s
        else
          match chanCanBeHopHint (calls s) openChannels channel chanInfo with
          | Panic => Panicked
          | Ret (remotePolicy, canBeHopHint, n) =>
              if negb canBeHopHint || bool_decide (remotePolicy = None)
              then Continue (with_calls s n)
              else
                match ParsePubKey (PubKeyBytes channel) with
                | Fail _ => Continue (with_calls s n)
                | Ok nodeID =>
                    match Node2Policy edge with
                    | None => Panicked
                    | Some node2Policy =>
                        Continue
                          {| hopHints :=
                               hopHints s ++ [[makeHint nodeID channel node2Policy]];
                             hopHintChans := hopHintChans s;
                             totalHintBandwidth :=
                               wrap_int64 (totalHintBandwidth s + RemoteBalance channel);
                             calls := n |}
                    end
                end
          end
    end.

Fixpoint pass2 (chanInfo : option ChannelEdge) (channels : list ChannelInfo)
    (s : locals) : control locals (result (list (list HopHint))) :=
  match channels with
  | [] => Continue s
  | channel :: rest =>
      match pass2_body chanInfo channel s with
      | Continue s' => pass2 chanInfo rest s'
      | other => other
      end
  end.

Definition init_locals : locals :=
  {| hopHints := []; hopHintChans := ∅; totalHintBandwidth := 0; calls := 0%nat |}.

End Selection.

(** [SelectHopHints]. [make] panics on a negative capacity. The outer
    [chanInfo] is declared nil and no statement assigns it before the
    second loop. *)
Definition SelectHopHints `{Btcec} (lnd : LndClient) (amtMSat : Z)
    (numMaxHophints : Z) (include_nodes : option (gset Vertex))
  : outcome (result (list (list HopHint))) :=
  match ListChannels lnd with
  | Fail e => Ret (Fail e)
  | Ok openChannels =>
      let chanInfo : option ChannelEdge := None in
      if numMaxHophints <? 0 then Panic
      else
        match pass1 lnd amtMSat include_nodes openChannels openChannels init_locals with
        | Return r => Ret r
        | Panicked => Panic
        | Break s | Continue s =>
            if numMaxHophints <=? Z.of_nat (length (hopHints s))
            then Ret (Ok (hopHints s))
            else
              match pass2 lnd amtMSat numMaxHophints openChannels chanInfo
                      openChannels s with
              | Return r => Ret r
              | Panicked => Panic
              | Break s' | Continue s' => Ret (Ok (hopHints s'))
              end
        end
  end.

(** *** Privacy of a hint, as predicates on the listed channels *)

(** The hint is for a listed channel [c], carries its peer's key, and no
    listed channel of that peer is private (so [c] itself is public). *)
Definition hint_backed `{Btcec} (channels : list ChannelInfo) (h : HopHint) : Prop :=
  ∃ c, c ∈ channels
       ∧ HintChannelID h = ChannelID c
       ∧ ParsePubKey (PubKeyBytes c) = Ok (NodeID h)
       ∧ ∀ c', c' ∈ channels → PubKeyBytes c' = PubKeyBytes c → Private c' = false.

(** The hint is built from the [Node2Policy] of an edge that lnd answered
    for the hinted channel. *)
Definition hint_reads_node2 `{Btcec} (lnd : LndClient) (channels : list ChannelInfo)
    (h : HopHint) : Prop :=
  ∃ c n edge node2Policy nodeID,
    c ∈ channels
    ∧ GetChanInfo lnd n (ChannelID c) = Ok edge
    ∧ Node2Policy edge = Some node2Policy
    ∧ h = makeHint nodeID c node2Policy.

(** The peer of [c] has another listed channel, and that one is public. *)
Definition other_public_channel (channels : list ChannelInfo) (c : ChannelInfo) : Prop :=
  ∃ c', c' ∈ channels
        ∧ ChannelID c' ≠ ChannelID c
        ∧ PubKeyBytes c' = PubKeyBytes c
        ∧ Private c' = false.

(** Every returned hint is for a listed channel whose peer has another
    public channel. *)
Definition hints_have_other_public_channel `{Btcec} (lnd : LndClient) (amtMSat : Z)
    (numMaxHophints : Z) (include_nodes : option (gset Vertex)) : Prop :=
  ∀ channels hs group h,
    ListChannels lnd = Ok channels →
    SelectHopHints lnd amtMSat numMaxHophints include_nodes = Ret (Ok hs) →
    group ∈ hs → h ∈ group →
    ∃ c, c ∈ channels ∧ HintChannelID h = ChannelID c ∧ other_public_channel channels c.

(** *** What the first loop asks of a channel, as predicates *)

(** The channel alone carries the amount, its peer is among the included
    nodes when there are any, and no listed channel of its peer is
    private. *)
Definition qualifies (amtMSat : Z) (include_nodes : option (gset Vertex))
    (channels : list ChannelInfo) (c : ChannelInfo) : Prop :=
  amtMSat <= RemoteBalance c
  ∧ (∀ nodes, include_nodes = Some nodes → PubKeyBytes c ∈ nodes)
  ∧ IsPublicNode channels (PubKeyBytes c) = true.

(** The group [g] is the single hint of channel [c]. *)
Definition hint_for `{Btcec} (c : ChannelInfo) (g : list HopHint) : Prop :=
  ∃ h, g = [h]
       ∧ HintChannelID h = ChannelID c
       ∧ ParsePubKey (PubKeyBytes c) = Ok (NodeID h).

End HopHints.

(** ** The liquidity manager *)

Module Liquidity.

(** [lnwire.ShortChannelID] is the 8-byte channel id split into block
    height, transaction index and output position;
    [NewShortChanIDFromInt] and [ToUint64] are inverse bijections with
    uint64, so a short channel id is carried as that integer. *)
Abbreviation ShortChannelID := Z (only parsing).
Definition NewShortChanIDFromInt (chanID : Z) : ShortChannelID := chanID.
Definition ToUint64 (c : ShortChannelID) : Z := c.

(** lnd's [chainfee.AbsoluteFeePerKwFloor], in sat per kiloweight. *)
Definition AbsoluteFeePerKwFloor : Z := 250.

Definition FeeBase : Z := 1000000.
Definition defaultSwapFeePPM : Z := 5000.
Definition defaultRoutingFeePPM : Z := 10000.
Definition defaultPrepayRoutingFeePPM : Z := 5000.
Definition defaultMaximumMinerFee : Z := 15000.
Definition defaultMaximumPrepay : Z := 30000.

(** Modelled from the spec: the server's [Restrictions], declared in
    another file of the package: minimum and maximum swap amount. *)
Record Restrictions : Type := {
  Minimum : Z;
  Maximum : Z
}.

(** Modelled from the spec: [LoopOutRecommendation], declared in another
    file of the package: channel id and requested amount. *)
Record LoopOutRecommendation : Type := {
  Amount : Z;
  Channel : ShortChannelID
}.

(** [loop.OutRequest], the fields [makeLoopOutRequest] sets. *)
Record OutRequest : Type := {
  ReqAmount : Z;
  OutgoingChanSet : list Z;
  MaxPrepayRoutingFee : Z;
  MaxSwapRoutingFee : Z;
  MaxMinerFee : Z;
  MaxSwapFee : Z;
  MaxPrepayAmount : Z;
  ReqSweepConfTarget : Z
}.

(** Swap states of package loopdb, of which the manager uses the three
    state types, the one state it names, and [Type()]; the states
    themselves and [Type()] are parameters. *)
Inductive SwapStateType : Type :=
| StateTypePending
| StateTypeSuccess
| StateTypeFail.

#[global] Instance SwapStateType_eq_dec : EqDecision SwapStateType.
Proof. solve_decision. Defined.

Class Loopdb : Type := {
  SwapState : Type;
  SwapState_eq_dec :: EqDecision SwapState;
  StateFailOffchainPayments : SwapState;
  StateType : SwapState -> SwapStateType
}.

(** [ThresholdRule] and [balances] are declared in other files of the
    package: the rule type, its [validate] and [suggestSwap] methods and
    [newBalances] are parameters. *)
Class Rules : Type := {
  ThresholdRule : Type;
  rule_validate : ThresholdRule -> option error;
  balances : Type;
  newBalances : ChannelInfo -> balances;
  suggestSwap : ThresholdRule -> balances -> Restrictions -> option LoopOutRecommendation
}.

(** The order in which [range] visits a map is chosen by the runtime:
    some enumeration of the entries, each once. *)
Class MapRange : Type := {
  range_order : forall {V : Type}, gmap ShortChannelID V -> list (ShortChannelID * V);
  range_order_perm : forall (V : Type) (m : gmap ShortChannelID V),
    range_order m ≡ₚ map_to_list m
}.

(** Addresses of the cells that hold rules and maps. A [*ThresholdRule]
    or a map value is nil ([None]) or an address. *)
Abbreviation addr := positive (only parsing).
Abbreviation ref := (option positive) (only parsing).

Section Manager.
Context `{Loopdb} `{Rules} `{MapRange}.

(** Modelled from the spec: a loop-out record of package loopdb as the
    manager reads it: [State().State], [LastUpdate().Time] and
    [Contract.OutgoingChanSet]. *)
Record LoopOut : Type := {
  OutState : SwapState;
  OutLastUpdate : Time;
  OutChanSet : list Z
}.

#[global] Instance LoopOut_eq_dec : EqDecision LoopOut.
Proof. solve_decision. Defined.

(** Modelled from the spec: a loop-in record of package loopdb as the
    manager reads it: [State().State] and [Contract.LastHop], a pointer
    that is nil when the swap has no last-hop constraint. *)
Record LoopIn : Type := {
  InState : SwapState;
  LastHop : option Vertex
}.

(** [Config]: what the outside world answers during one call. *)
Record Config : Type := {
  LoopOutRestrictions : result Restrictions;
  EstimateFee : Z -> result Z;
  ListChannels : result (list ChannelInfo);
  ListLoopOut : result (list LoopOut);
  ListLoopIn : result (list LoopIn);
  Now : Time;
  MinimumConfirmations : Z      (* int32 *)
}.

(** *** The store: maps and rules are reached through references *)

Record Heap : Type := {
  rule_cells : gmap addr ThresholdRule;
  map_cells : gmap addr (gmap ShortChannelID ref)
}.

Record Parameters : Type := {
  FailureBackOff : Z;        (* time.Duration, int64 *)
  SweepFeeRateLimit : Z;     (* chainfee.SatPerKWeight, int64 *)
  SweepConfTarget : Z;       (* int32 *)
  ChannelRules : ref
}.

Record Manager : Type := {
  cfg : Config;
  params : Parameters
}.

Record State : Type := {
  heap : Heap;
  manager : Manager
}.

(** Reading a map through its reference; a nil map reads as empty. Go
    leaves no reference dangling; an address without a cell reads as
    empty too. *)
Definition map_of (h : Heap) (r : ref) : gmap ShortChannelID ref :=
  match r with
  | None => ∅
  | Some a => default ∅ (map_cells h !! a)
  end.

(** [*rule]: nil has no cell, and dereferencing it panics ([None]). *)
Definition deref_rule (h : Heap) (r : ref) : option ThresholdRule :=
  a ← r; rule_cells h !! a.

Definition alloc_map (h : Heap) (m : gmap ShortChannelID ref) : Heap * addr :=
  let a := fresh (dom (map_cells h)) in
  ({| rule_cells := rule_cells h; map_cells := <[a := m]> (map_cells h) |}, a).

Definition alloc_rule (h : Heap) (r : ThresholdRule) : Heap * addr :=
  let a := fresh (dom (rule_cells h)) in
  ({| rule_cells := <[a := r]> (rule_cells h); map_cells := map_cells h |}, a).

(** [m[k] = v] on the map at [a]. *)
Definition map_store (h : Heap) (a : addr) (k : ShortChannelID) (v : ref) : Heap :=
  {| rule_cells := rule_cells h;
     map_cells := <[a := <[k := v]> (default ∅ (map_cells h !! a))]> (map_cells h) |}.

(** *** Parameters.validate *)

Fixpoint validate_rules (h : Heap) (entries : list (ShortChannelID * ref))
  : outcome (option error) :=
  match entries with
  | [] => Ret None
  | (channel, rule) :: rest =>
      if ToUint64 channel =? 0 then Ret (Some ErrZeroChannelID)
      else
        match deref_rule h rule with
        | None => Panic
        | Some r =>
            match rule_validate r with
            | Some err => Ret (Some (ErrInvalidRule (ToUint64 channel) err))
            | None => validate_rules h rest
            end
        end
  end.

Definition validate (h : Heap) (p : Parameters) (minConfs : Z)
  : outcome (option error) :=
  match validate_rules h (range_order (map_of h (ChannelRules p))) with
  | Panic => Panic
  | Ret (Some err) => Ret (Some err)
  | Ret None =>
      if SweepFeeRateLimit p <? AbsoluteFeePerKwFloor
      then Ret (Some ErrInvalidSweepFeeRateLimit)
      else if SweepConfTarget p <? minConfs
      then Ret (Some (ErrConfTarget minConfs))
      else Ret None
  end.

(** *** cloneParameters *)

Fixpoint clone_rules (src : Heap) (entries : list (ShortChannelID * ref))
    (h : Heap) (copy : addr) : outcome Heap :=
  match entries with
  | [] => Ret h
  | (channel, rule) :: rest =>
      match deref_rule src rule with
      | None => Panic
      | Some ruleCopy =>
          let '(h1, a) := alloc_rule h ruleCopy in
          clone_rules src rest (map_store h1 copy channel (Some a)) copy
      end
  end.

Definition cloneParameters (h : Heap) (p : Parameters) : outcome (Heap * Parameters) :=
  let '(h0, copy) := alloc_map h ∅ in
  match clone_rules h (range_order (map_of h (ChannelRules p))) h0 copy with
  | Panic => Panic
  | Ret h1 =>
      Ret (h1, {| FailureBackOff := FailureBackOff p;
                  SweepFeeRateLimit := SweepFeeRateLimit p;
                  SweepConfTarget := SweepConfTarget p;
                  ChannelRules := Some copy |})
  end.

(** *** GetParameters, SetParameters *)

Definition GetParameters (st : State) : outcome (State * Parameters) :=
  match cloneParameters (heap st) (params (manager st)) with
  | Panic => Panic
  | Ret (h, copy) => Ret ({| heap := h; manager := manager st |}, copy)
  end.

Definition SetParameters (st : State) (p : Parameters) : outcome (State * option error) :=
  match validate (heap st) p (MinimumConfirmations (cfg (manager st))) with
  | Panic => Panic
  | Ret (Some err) => Ret (st, Some err)
  | Ret None =>
      match cloneParameters (heap st) p with
      | Panic => Panic
      | Ret (h, copy) =>
          Ret ({| heap := h;
                  manager := {| cfg := cfg (manager st); params := copy |} |}, None)
      end
  end.

(** *** What a caller can do with the value GetParameters returned

    The caller holds the struct [q]; through [q.ChannelRules] it can add
    an entry for a new rule of its own, for nil, or for a pointer it
    finds in the map, delete an entry, and write through a rule pointer
    it finds in the map. *)
Inductive mutate (q : Parameters) : Heap -> Heap -> Prop :=
| mutate_add (h : Heap) (a : addr) (k : ShortChannelID) (r : ThresholdRule) :
    ChannelRules q = Some a ->
    is_Some (map_cells h !! a) ->
    mutate q h (map_store (alloc_rule h r).1 a k (Some (alloc_rule h r).2))
| mutate_add_nil (h : Heap) (a : addr) (k : ShortChannelID) :
    ChannelRules q = Some a ->
    is_Some (map_cells h !! a) ->
    mutate q h (map_store h a k None)
| mutate_copy (h : Heap) (a : addr) (k k' : ShortChannelID) (l : addr) :
    ChannelRules q = Some a ->
    map_of h (Some a) !! k' = Some (Some l) ->
    mutate q h (map_store h a k (Some l))
| mutate_remove (h : Heap) (a : addr) (k : ShortChannelID) :
    ChannelRules q = Some a ->
    is_Some (map_cells h !! a) ->
    mutate q h
      {| rule_cells := rule_cells h;
         map_cells := <[a := delete k (map_of h (Some a))]> (map_cells h) |}
| mutate_modify (h : Heap) (k : ShortChannelID) (l : addr) (r : ThresholdRule) :
    map_of h (ChannelRules q) !! k = Some (Some l) ->
    is_Some (rule_cells h !! l) ->
    mutate q h
      {| rule_cells := <[l := r]> (rule_cells h); map_cells := map_cells h |}.

(** The value of a [Parameters]: its three scalars and, for every
    channel of its rule map, the rule its pointer leads to ([None] for a
    nil pointer). *)
Definition rules_view (h : Heap) (p : Parameters)
  : gmap ShortChannelID (option ThresholdRule) :=
  deref_rule h <$> map_of h (ChannelRules p).

Definition value_equal (h1 : Heap) (p1 : Parameters) (h2 : Heap) (p2 : Parameters)
  : Prop :=
  FailureBackOff p1 = FailureBackOff p2
  ∧ SweepFeeRateLimit p1 = SweepFeeRateLimit p2
  ∧ SweepConfTarget p1 = SweepConfTarget p2
  ∧ rules_view h1 p1 = rules_view h2 p2.

(** No entry of the rule map of [p] holds a nil pointer. *)
Definition rules_present (h : Heap) (p : Parameters) : Prop :=
  map_Forall (λ _ r, is_Some r) (rules_view h p).

(** *** getEligibleChannels *)

Definition mark_failed (failedAt : Time) (chanSet : list Z)
    (failedOut : gmap ShortChannelID Time) : gmap ShortChannelID Time :=
  foldl (λ f id, <[NewShortChanIDFromInt id := failedAt]> f) failedOut chanSet.

Definition mark_existing (chanSet : list Z)
    (existingOut : gmap ShortChannelID bool) : gmap ShortChannelID bool :=
  foldl (λ e id, <[NewShortChanIDFromInt id := true]> e) existingOut chanSet.

(** The loop over the loop-out records; [None] is its [return nil, nil]. *)
Fixpoint scan_loop_out (failureCutoff : Time) (loopOut : list LoopOut)
    (existingOut : gmap ShortChannelID bool) (failedOut : gmap ShortChannelID Time)
  : option (gmap ShortChannelID bool * gmap ShortChannelID Time) :=
  match loopOut with
  | [] => Some (existingOut, failedOut)
  | out :: rest =>
      let state := OutState out in
      let chanSet := OutChanSet out in
      let failedOut :=
        if bool_decide (state = StateFailOffchainPayments) then
          let failedAt := OutLastUpdate out in
          if Time_After failedAt failureCutoff
          then mark_failed failedAt chanSet failedOut
          else failedOut
        else failedOut in
      if bool_decide (StateType state ≠ StateTypePending)
      then scan_loop_out failureCutoff rest existingOut failedOut
      else if bool_decide (length chanSet = 0%nat) then None
      else scan_loop_out failureCutoff rest (mark_existing chanSet existingOut) failedOut
  end.

(** The loop over the loop-in records; [None] is its [return nil, nil]. *)
Fixpoint scan_loop_in (loopIn : list LoopIn) (existingIn : gmap Vertex bool)
  : option (gmap Vertex bool) :=
  match loopIn with
  | [] => Some existingIn
  | i :: rest =>
      if bool_decide (StateType (InState i) ≠ StateTypePending)
      then scan_loop_in rest existingIn
      else
        match LastHop i with
        | None => None
        | Some lastHop => scan_loop_in rest (<[lastHop := true]> existingIn)
        end
  end.

(** The last loop: [eligible] collects the channels that no map holds. *)
Fixpoint filter_channels (existingOut : gmap ShortChannelID bool)
    (existingIn : gmap Vertex bool) (failedOut : gmap ShortChannelID Time)
    (channels : list ChannelInfo) (eligible : list ChannelInfo) : list ChannelInfo :=
  match channels with
  | [] => eligible
  | channel :: rest =>
      let shortID := NewShortChanIDFromInt (ChannelID channel) in
      if bool_decide (is_Some (failedOut !! shortID))
      then filter_channels existingOut existingIn failedOut rest eligible
      else if default false (existingOut !! shortID)
      then filter_channels existingOut existingIn failedOut rest eligible
      else if default false (existingIn !! PubKeyBytes channel)
      then filter_channels existingOut existingIn failedOut rest eligible
      else filter_channels existingOut existingIn failedOut rest (eligible ++ [channel])
  end.

Definition getEligibleChannels (m : Manager) (loopOut : list LoopOut)
    (loopIn : list LoopIn) : result (list ChannelInfo) :=
  let failureCutoff :=
    Time_Add (Now (cfg m)) (wrap_int64 (FailureBackOff (params m) * -1)) in
  match scan_loop_out failureCutoff loopOut ∅ ∅ with
  | None => Ok []
  | Some (existingOut, failedOut) =>
      match scan_loop_in loopIn ∅ with
      | None => Ok []
      | Some existingIn =>
          match ListChannels (cfg m) with
          | Fail err => Fail err
          | Ok channels =>
              Ok (filter_channels existingOut existingIn failedOut channels [])
          end
      end
  end.

(** *** SuggestSwaps *)

Definition ppmToSat (amount : Z) (ppm : Z) : Z :=
  wrap_int64 (to_uint64 (to_uint64 amount * to_uint64 ppm) / FeeBase).

Definition makeLoopOutRequest (m : Manager) (suggestion : LoopOutRecommendation)
  : OutRequest :=
  let prepayMaxFee := ppmToSat defaultMaximumPrepay defaultPrepayRoutingFeePPM in
  let routeMaxFee := ppmToSat (Amount suggestion) defaultRoutingFeePPM in
  let maxSwapFee := ppmToSat (Amount suggestion) defaultSwapFeePPM in
  {| ReqAmount := Amount suggestion;
     OutgoingChanSet := [ToUint64 (Channel suggestion)];
     MaxPrepayRoutingFee := prepayMaxFee;
     MaxSwapRoutingFee := routeMaxFee;
     MaxMinerFee := defaultMaximumMinerFee;
     MaxSwapFee := maxSwapFee;
     MaxPrepayAmount := defaultMaximumPrepay;
     ReqSweepConfTarget := SweepConfTarget (params m) |}.

(** The loop over the eligible channels. A rule's method reads the rule
    its receiver points to. *)
Fixpoint suggest (h : Heap) (m : Manager) (outRestrictions : Restrictions)
    (eligible : list ChannelInfo) (suggestions : list OutRequest)
  : outcome (list OutRequest) :=
  match eligible with
  | [] => Ret suggestions
  | channel :: rest =>
      let channelID := NewShortChanIDFromInt (ChannelID channel) in
      match map_of h (ChannelRules (params m)) !! channelID with
      | None => suggest h m outRestrictions rest suggestions
      | Some rule =>
          let balance := newBalances channel in
          match deref_rule h rule with
          | None => Panic
          | Some r =>
              match suggestSwap r balance outRestrictions with
              | None => suggest h m outRestrictions rest suggestions
              | Some suggestion =>
                  suggest h m outRestrictions rest
                    (suggestions ++ [makeLoopOutRequest m suggestion])
              end
          end
      end
  end.

Definition SuggestSwaps (st : State) : outcome (result (list OutRequest)) :=
  let m := manager st in
  if bool_decide (size (map_of (heap st) (ChannelRules (params m))) = 0%nat)
  then Ret (Ok [])
  else
    match EstimateFee (cfg m) (SweepConfTarget (params m)) with
    | Fail err => Ret (Fail err)
    | Ok estimate =>
        if SweepFeeRateLimit (params m) <? estimate then Ret (Ok [])
        else
          match LoopOutRestrictions (cfg m) with
          | Fail err => Ret (Fail err)
          | Ok outRestrictions =>
              match ListLoopOut (cfg m) with
              | Fail err => Ret (Fail err)
              | Ok loopOut =>
                  match ListLoopIn (cfg m) with
                  | Fail err => Ret (Fail err)
                  | Ok loopIn =>
                      match getEligibleChannels m loopOut loopIn with
                      | Fail err => Ret (Fail err)
                      | Ok eligible =>
                          match suggest (heap st) m outRestrictions eligible [] with
                          | Panic => Panic
                          | Ret suggestions => Ret (Ok suggestions)
                          end
                      end
                  end
              end
          end
    end.

(** *** Predicates on swap records and on the store *)

(** A pending loop out with no outgoing channel set, a pending loop in
    with no last hop. *)
Definition unrestricted_out (o : LoopOut) : Prop :=
  StateType (OutState o) = StateTypePending ∧ OutChanSet o = [].

Definition unrestricted_in (i : LoopIn) : Prop :=
  StateType (InState i) = StateTypePending ∧ LastHop i = None.

(** A loop-out record marks channel [k] as recently failed. *)
Definition fails_channel (cutoff : Time) (k : ShortChannelID) (o : LoopOut) : Prop :=
  OutState o = StateFailOffchainPayments
  ∧ cutoff < OutLastUpdate o
  ∧ k ∈ OutChanSet o.

(** A loop-out record holds channel [k] for a swap in flight. *)
Definition holds_channel (k : ShortChannelID) (o : LoopOut) : Prop :=
  StateType (OutState o) = StateTypePending ∧ k ∈ OutChanSet o.

(** A loop-in record holds the peer [v] for a swap in flight. *)
Definition holds_peer (v : Vertex) (i : LoopIn) : Prop :=
  StateType (InState i) = StateTypePending ∧ LastHop i = Some v.

(** The stored parameters [pm] and a returned copy [q] are apart in [h]:
    the rules of [pm] are cells of [old], which [h] still holds
    unchanged; the map of [q] is another map, and its rules are not
    cells of [old]. *)
Definition apart (old : gmap addr ThresholdRule) (pm q : Parameters) (h : Heap) : Prop :=
  old ⊆ rule_cells h
  ∧ (∀ k l, map_of h (ChannelRules pm) !! k = Some (Some l) → l ∈ dom old)
  ∧ (∀ k l, map_of h (ChannelRules q) !! k = Some (Some l) → l ∉ dom old)
  ∧ ChannelRules pm ≠ ChannelRules q
  ∧ is_Some (ChannelRules pm).

(** The rules of [p] are without fault: none is for channel id 0 and each
    passes its own validation. *)
Definition faultless_rules (h : Heap) (p : Parameters) : Prop :=
  rules_view h p !! 0 = None
  ∧ ∀ k v, rules_view h p !! k = Some (Some v) → rule_validate v = None.

(** *** NewManager *)

Definition defaultFailureBackoff : Z := 24 * (3600 * 1000000000).
Definition defaultSweepFeeRateLimit : Z := 750.

(** The package variable [defaultParameters]. [rules] is the reference of
    the map its initialiser makes; [DefaultSweepConfTarget] is the
    constant of package loop. *)
Definition defaultParameters (DefaultSweepConfTarget : Z) (rules : ref) : Parameters :=
  {| FailureBackOff := defaultFailureBackoff;
     SweepFeeRateLimit := defaultSweepFeeRateLimit;
     SweepConfTarget := DefaultSweepConfTarget;
     ChannelRules := rules |}.

(** [NewManager]: the struct [defaultParameters] is copied, its map is
    not. *)
Definition NewManager (config : Config) (defaults : Parameters) : Manager :=
  {| cfg := config; params := defaults |}.

(** *** satPerKwToSatPerVByte *)

(** lnd's [SatPerKWeight.FeePerKVByte]: the rate times the witness scale
    factor. *)
Definition FeePerKVByte (satPerKw : Z) : Z := wrap_int64 (satPerKw * 4).

(** Go's integer division rounds towards zero. *)
Definition satPerKwToSatPerVByte (satPerKw : Z) : Z :=
  wrap_int64 (FeePerKVByte satPerKw ÷ 1000).

(** *** The eligible channels, as a filter *)

Definition failureCutoff (m : Manager) : Time :=
  Time_Add (Now (cfg m)) (wrap_int64 (FailureBackOff (params m) * -1)).

#[global] Instance unrestricted_out_dec (o : LoopOut) : Decision (unrestricted_out o).
Proof. unfold unrestricted_out. apply _. Defined.

#[global] Instance unrestricted_in_dec (i : LoopIn) : Decision (unrestricted_in i).
Proof. unfold unrestricted_in. apply _. Defined.

#[global] Instance fails_channel_dec cutoff k (o : LoopOut) :
  Decision (fails_channel cutoff k o).
Proof. unfold fails_channel. apply _. Defined.

#[global] Instance holds_channel_dec k (o : LoopOut) : Decision (holds_channel k o).
Proof. unfold holds_channel. apply _. Defined.

#[global] Instance holds_peer_dec v (i : LoopIn) : Decision (holds_peer v i).
Proof. unfold holds_peer. apply _. Defined.

(** No swap record keeps the channel from being suggested: no loop out
    over it failed off chain after the cutoff, no pending loop out uses it,
    no pending loop in uses its peer as last hop. *)
Definition free_channel (cutoff : Time) (loopOut : list LoopOut)
    (loopIn : list LoopIn) (c : ChannelInfo) : Prop :=
  ¬ Exists (fails_channel cutoff (ChannelID c)) loopOut
  ∧ ¬ Exists (holds_channel (ChannelID c)) loopOut
  ∧ ¬ Exists (holds_peer (PubKeyBytes c)) loopIn.

#[global] Instance free_channel_dec cutoff loopOut loopIn c :
  Decision (free_channel cutoff loopOut loopIn c).
Proof. unfold free_channel. apply _. Defined.

(** The records that getEligibleChannels does not skip. *)
Definition live_out (o : LoopOut) : Prop :=
  OutState o = StateFailOffchainPayments ∨ StateType (OutState o) = StateTypePending.

Definition live_in (i : LoopIn) : Prop :=
  StateType (InState i) = StateTypePending.

#[global] Instance live_out_dec (o : LoopOut) : Decision (live_out o).
Proof. unfold live_out. apply _. Defined.

#[global] Instance live_in_dec (i : LoopIn) : Decision (live_in i).
Proof. unfold live_in. apply _. Defined.

(** *** The request SuggestSwaps makes for one channel *)

Definition request_for (h : Heap) (m : Manager) (outRestrictions : Restrictions)
    (channel : ChannelInfo) : option OutRequest :=
  rule ← map_of h (ChannelRules (params m)) !! NewShortChanIDFromInt (ChannelID channel);
  r ← deref_rule h rule;
  suggestion ← suggestSwap r (newBalances channel) outRestrictions;
  Some (makeLoopOutRequest m suggestion).

End Manager.

End Liquidity.

(** ** The loop in command ([cmd/loop/loopin.go]) *)

Module Cmd.

(** [int32(x)] of an integer. *)
Definition to_int32 (z : Z) : Z := (z + 2 ^ 31) mod 2 ^ 32 - 2 ^ 31.

(** The names of the flags the command declares. *)
Definition lastHopFlag_Name : string := "last_hop".
Definition confTargetFlag_Name : string := "conf_target".
Definition labelFlag_Name : string := "label".
Definition routeHintsFlag_Name : string := "route_hints".
Definition privateFlag_Name : string := "private".

(** [cli.Context]: what was given on the command line, as the accessors
    of the library present it. [ctx.NArg()] is [len(ctx.Args())], so
    [ctx.NArg() > 0] is read as: [ctx.Args()] has a first element. *)
Record Context : Type := {
  ctx_IsSet : string → bool;
  ctx_String : string → string;
  ctx_Bool : string → bool;
  ctx_Uint64 : string → Z;      (* uint64 *)
  ctx_Args : list string
}.

(** The text the amount is read from: the amt flag when it is set, else
    the first argument, if there is one. *)
Definition amount_text (ctx : Context) : option string :=
  if ctx_IsSet ctx "amt" then Some (ctx_String ctx "amt") else head (ctx_Args ctx).

(** The errors the command makes itself, and [ErrFrom] for an error it
    hands on unchanged. *)
Inductive CmdError : Type :=
| ErrExternalAndConfTarget        (* external and conf_target both set *)
| ErrPrivateAndRouteHints         (* private and route_hints both set *)
| ErrParseJSON (cause : error)    (* unable to parse json: cause *)
| ErrMinerFeeEstimation           (* miner fee estimation not possible, ... *)
| ErrFrom (e : error).

(** [looprpc.QuoteRequest], [looprpc.LoopInRequest] and
    [looprpc.SwapResponse], the fields the command writes or reads. *)
Record QuoteRequest (RouteHint : Type) : Type := {
  Amt : Z;                                (* int64 *)
  ConfTarget : Z;                         (* int32 *)
  ExternalHtlc : bool;
  LoopInLastHop : option Vertex;          (* []byte, nil when absent *)
  LoopInRouteHints : list RouteHint;
  Private : bool
}.
Global Arguments Amt {RouteHint} _.
Global Arguments ConfTarget {RouteHint} _.
Global Arguments ExternalHtlc {RouteHint} _.
Global Arguments LoopInLastHop {RouteHint} _.
Global Arguments LoopInRouteHints {RouteHint} _.
Global Arguments Private {RouteHint} _.

Record LoopInRequest (RouteHint : Type) : Type := {
  ReqAmt : Z;                             (* int64 *)
  MaxMinerFee : Z;                        (* int64 *)
  MaxSwapFee : Z;                         (* int64 *)
  ReqExternalHtlc : bool;
  HtlcConfTarget : Z;                     (* int32 *)
  Label : string;
  Initiator : string;
  LastHop : option Vertex;
  RouteHints : list RouteHint
}.
Global Arguments ReqAmt {RouteHint} _.
Global Arguments MaxMinerFee {RouteHint} _.
Global Arguments MaxSwapFee {RouteHint} _.
Global Arguments ReqExternalHtlc {RouteHint} _.
Global Arguments HtlcConfTarget {RouteHint} _.
Global Arguments Label {RouteHint} _.
Global Arguments Initiator {RouteHint} _.
Global Arguments LastHop {RouteHint} _.
Global Arguments RouteHints {RouteHint} _.

Record SwapResponse : Type := {
  Id : string;
  HtlcAddressNp2Wsh : string;
  HtlcAddressP2Wsh : string;
  ServerMessage : string
}.

(** The result of [getInLimits]. *)
Record inLimits : Type := {
  maxMinerFee : Z;                        (* btcutil.Amount *)
  maxSwapFee : Z
}.

(** What the command uses and this file does not define: the types of
    the rpc package, the connection to the daemon and the daemon's two
    calls, the helpers of the command package, [labels.Validate],
    [route.NewVertexFromStr], [json.Unmarshal] into route hints,
    [cli.ShowCommandHelp] and two constants. Nothing is assumed of them:
    every property below holds for every instance. *)
Class Looprpc : Type := {
  RouteHint : Type;
  InQuoteResponse : Type;
  HtlcPublishFeeSat : InQuoteResponse → Z;
  QuoteRouteHints : InQuoteResponse → list RouteHint;
  SwapClient : Type;
  GetLoopInQuote : SwapClient → QuoteRequest RouteHint → result InQuoteResponse;
  LoopIn : SwapClient → LoopInRequest RouteHint → result SwapResponse;
  parseAmt : string → result Z;
  getClient : Context → result SwapClient;
  labels_Validate : string → option error;
  NewVertexFromStr : string → result Vertex;
  json_Unmarshal : string → result (list RouteHint);
  getInLimits : InQuoteResponse → inLimits;
  displayInDetails : QuoteRequest RouteHint → InQuoteResponse → bool → option error;
  ShowCommandHelp : Context → string → option error;
  MinerFeeEstimationFailed : Z;
  defaultInitiator : string
}.

Section Command.
Context `{Looprpc}.

(** What a run of the command does to the outside, in order. *)
Inductive Event : Type :=
| EvShowCommandHelp (command : string)
| EvGetClient
| EvCleanup
| EvGetLoopInQuote (req : QuoteRequest RouteHint)
| EvDisplayInDetails (req : QuoteRequest RouteHint) (quote : InQuoteResponse)
    (verbose : bool)
| EvLoopIn (req : LoopInRequest RouteHint)
| EvPrint (text : string).

(** A stretch of the function body: the events so far, and either the
    value to go on with or the value the function has returned. *)
Inductive flow (A : Type) : Type :=
| Next (a : A)
| Returned (err : option CmdError).
Global Arguments Next {A} a.
Global Arguments Returned {A} err.

Definition Body (A : Type) : Type := list Event * flow A.

#[global] Instance body_ret : MRet Body := λ A a, ([], Next a).

#[global] Instance body_bind : MBind Body := λ A B f m,
  match m with
  | (t, Next a) => let '(t', r) := f a in (t ++ t', r)
  | (t, Returned e) => (t, Returned e)
  end.

Definition emit (ev : Event) : Body unit := ([ev], Next tt).

Definition return_ {A : Type} (err : option CmdError) : Body A :=
  ([], Returned err).

(** [v, err := f(); if err != nil { return err }] *)
Definition try {A : Type} (r : result A) : Body A :=
  match r with
  | Ok a => mret a
  | Fail e => return_ (Some (ErrFrom e))
  end.

(** [if err := f(); err != nil { return err }] *)
Definition check (err : option error) : Body unit :=
  match err with
  | None => mret tt
  | Some e => return_ (Some (ErrFrom e))
  end.

(** [defer f()] in front of the rest of the body: [f] runs when the
    function returns, whichever return that is. *)
Definition defer {A : Type} (ev : Event) (rest : Body A) : Body A :=
  (rest.1 ++ [ev], rest.2).

Definition run (body : Body (option CmdError)) : list Event * option CmdError :=
  (body.1, match body.2 with Next err => err | Returned err => err end).

(** The line feed, character 10. *)
Definition nl : string :=
  String (Ascii.Ascii false true false true false false false false) EmptyString.

(** The text printed once the swap is accepted. *)
Definition report (external : bool) (resp : SwapResponse) : Body unit :=
  emit (EvPrint ("Swap initiated" +:+ nl)) ;;
  emit (EvPrint ("ID:           " +:+ Id resp +:+ nl)) ;;
  (if external
   then emit (EvPrint ("HTLC address (NP2WSH): " +:+ HtlcAddressNp2Wsh resp +:+ nl))
   else mret tt) ;;
  emit (EvPrint ("HTLC address (P2WSH): " +:+ HtlcAddressP2Wsh resp +:+ nl)) ;;
  (if bool_decide (ServerMessage resp ≠ EmptyString)
   then emit (EvPrint ("Server message: " +:+ ServerMessage resp +:+ nl))
   else mret tt) ;;
  emit (EvPrint nl) ;;
  emit (EvPrint ("Run `loop monitor` to monitor progress." +:+ nl)).

Definition loopIn (ctx : Context) : list Event * option CmdError :=
  run (
    (* [args = args.Tail()] is a store that is never read. *)
    amtStr ← (if ctx_IsSet ctx "amt" then mret (ctx_String ctx "amt")
              else match ctx_Args ctx with
                   | arg :: _ => mret arg
                   | [] => emit (EvShowCommandHelp "in") ;;
                           return_ (ErrFrom <$> ShowCommandHelp ctx "in")
                   end);
    amt ← try (parseAmt amtStr);
    client ← (emit EvGetClient ;; try (getClient ctx));
    defer EvCleanup (
      let external := ctx_Bool ctx "external" in
      let htlcConfTarget := to_int32 (ctx_Uint64 ctx confTargetFlag_Name) in
      (if external && negb (htlcConfTarget =? 0)
       then return_ (Some ErrExternalAndConfTarget) else mret tt) ;;
      let label := ctx_String ctx labelFlag_Name in
      check (labels_Validate label) ;;
      lastHop ← (if ctx_IsSet ctx lastHopFlag_Name
                 then lastHopVertex ← try (NewVertexFromStr
                                             (ctx_String ctx lastHopFlag_Name));
                      mret (Some lastHopVertex)
                 else mret None);
      hints ← (if ctx_IsSet ctx privateFlag_Name && ctx_IsSet ctx routeHintsFlag_Name
               then return_ (Some ErrPrivateAndRouteHints)
               else if ctx_IsSet ctx routeHintsFlag_Name
               then match json_Unmarshal (ctx_String ctx routeHintsFlag_Name) with
                    | Ok hints => mret hints
                    | Fail err => return_ (Some (ErrParseJSON err))
                    end
               else mret []);
      let quoteReq :=
        {| Amt := amt;
           ConfTarget := htlcConfTarget;
           ExternalHtlc := external;
           LoopInLastHop := lastHop;
           LoopInRouteHints := hints;
           Private := ctx_Bool ctx privateFlag_Name |} in
      quote ← (emit (EvGetLoopInQuote quoteReq) ;;
               try (GetLoopInQuote client quoteReq));
      (if negb external && (HtlcPublishFeeSat quote =? MinerFeeEstimationFailed)
       then return_ (Some ErrMinerFeeEstimation) else mret tt) ;;
      let limits := getInLimits quote in
      emit (EvDisplayInDetails quoteReq quote (ctx_Bool ctx "verbose")) ;;
      check (displayInDetails quoteReq quote (ctx_Bool ctx "verbose")) ;;
      let req :=
        {| ReqAmt := amt;
           MaxMinerFee := maxMinerFee limits;
           MaxSwapFee := maxSwapFee limits;
           ReqExternalHtlc := external;
           HtlcConfTarget := htlcConfTarget;
           Label := label;
           Initiator := defaultInitiator;
           LastHop := lastHop;
           RouteHints := QuoteRouteHints quote |} in
      resp ← (emit (EvLoopIn req) ;; try (LoopIn client req));
      report external resp ;;
      mret None)).

End Command.

End Cmd.

(** ** Concrete nodes, channels and backends, used to run the code *)

Module Examples.
Import HopHints.

(** A stand-in for btcec: a key parses when it has the length and the
    first byte of a compressed public key. *)
Definition is_compressed_key (v : Vertex) : bool :=
  match v with
  | b :: _ =>
      (bool_decide (b = x02) || bool_decide (b = x03))
      && bool_decide (length v = 33%nat)
  | [] => false
  end.

#[export] Instance btcec_model : Btcec :=
  {| PublicKey := Vertex;
     ParsePubKey v :=
       if is_compressed_key v then Ok v
       else Fail (ErrExternal "malformed public key") |}.

(** The local node has the greatest key, so that it is node 2 of every
    edge below. *)
Definition us : Vertex := x03 :: repeat xff 32.
Definition peerA : Vertex := x02 :: repeat x0a 32.
Definition peerB : Vertex := x03 :: repeat x0b 32.
Definition peerBad : Vertex := x00 :: repeat x0c 32.

Definition chanA : ChannelInfo :=
  {| ChannelID := 1; PubKeyBytes := peerA; Capacity := 300000;
     LocalBalance := 100000; RemoteBalance := 150000; Private := false |}.

Definition chanB : ChannelInfo :=
  {| ChannelID := 2; PubKeyBytes := peerB; Capacity := 300000;
     LocalBalance := 100000; RemoteBalance := 120000; Private := false |}.

(** Too small for a payment of 100000, and its peer's key does not parse. *)
Definition chanBad : ChannelInfo :=
  {| ChannelID := 3; PubKeyBytes := peerBad; Capacity := 300000;
     LocalBalance := 200000; RemoteBalance := 50000; Private := false |}.

Definition ourPolicy : RoutingPolicy :=
  {| TimeLockDelta := 40; FeeBaseMsat := 1000; FeeRateMilliMsat := 1 |}.

Definition peerPolicy : RoutingPolicy :=
  {| TimeLockDelta := 144; FeeBaseMsat := 2000; FeeRateMilliMsat := 500 |}.

(** The edge of a channel in which the peer is node 1 and we are node 2. *)
Definition edge_of (id : Z) (point : string) (peer : Vertex) : ChannelEdge :=
  {| EdgeChannelID := id; ChannelPoint := point; Node1 := peer; Node2 := us;
     Node1Policy := Some peerPolicy; Node2Policy := Some ourPolicy |}.

Definition graph (n : nat) (id : Z) : result ChannelEdge :=
  if id =? 1 then Ok (edge_of 1 "aa:0" peerA)
  else if id =? 2 then Ok (edge_of 2 "bb:0" peerB)
  else if id =? 3 then Ok (edge_of 3 "cc:0" peerBad)
  else Fail (ErrExternal "edge not found").

Definition lnd_of (channels : list ChannelInfo) : LndClient :=
  {| ListChannels := Ok channels; GetChanInfo := graph |}.

Definition hintA : HopHint :=
  {| NodeID := peerA; HintChannelID := 1; FeeBaseMSat := 1000;
     FeeProportionalMillionths := 1; CLTVExpiryDelta := 40 |}.

Definition hintB : HopHint :=
  {| NodeID := peerB; HintChannelID := 2; FeeBaseMSat := 1000;
     FeeProportionalMillionths := 1; CLTVExpiryDelta := 40 |}.

(** *** The manager's collaborators *)

Import Liquidity.

(** A stand-in for the swap states of loopdb and their types. *)
Inductive swap_state : Type :=
| StateInitiated
| StatePreimageRevealed
| StateHtlcPublished
| StateInvoiceSettled
| StateSuccess
| StateFailOffchain
| StateFailTimeout
| StateFailTemporary.

#[export] Instance swap_state_eq_dec : EqDecision swap_state.
Proof. solve_decision. Defined.

Definition swap_state_type (s : swap_state) : SwapStateType :=
  match s with
  | StateInitiated | StatePreimageRevealed | StateHtlcPublished
  | StateInvoiceSettled | StateFailTemporary => StateTypePending
  | StateSuccess => StateTypeSuccess
  | StateFailOffchain | StateFailTimeout => StateTypeFail
  end.

#[export] Instance loopdb_model : Loopdb :=
  {| SwapState := swap_state;
     StateFailOffchainPayments := StateFailOffchain;
     StateType := swap_state_type |}.

(** A stand-in for the threshold rule: minimum incoming and outgoing
    liquidity as percentages of the capacity. *)
Record threshold : Type := {
  MinimumIncoming : Z;
  MinimumOutgoing : Z
}.

Definition threshold_validate (r : threshold) : option error :=
  if (MinimumIncoming r <? 0) || (100 <? MinimumIncoming r)
  then Some (ErrExternal "incoming threshold out of range")
  else if (MinimumOutgoing r <? 0) || (100 <? MinimumOutgoing r)
  then Some (ErrExternal "outgoing threshold out of range")
  else if 100 <=? MinimumIncoming r + MinimumOutgoing r
  then Some (ErrExternal "thresholds sum to the capacity or more")
  else None.

Definition threshold_suggest (r : threshold) (b : ChannelInfo) (restr : Restrictions)
  : option LoopOutRecommendation :=
  if RemoteBalance b * 100 <? MinimumIncoming r * Capacity b
  then Some {| Amount := Minimum restr; Channel := ChannelID b |}
  else None.

#[export] Instance rules_model : Rules :=
  {| ThresholdRule := threshold;
     rule_validate := threshold_validate;
     balances := ChannelInfo;
     newBalances := id;
     suggestSwap := threshold_suggest |}.

(** A runtime that ranges over a map in the order of [map_to_list]. *)
#[export] Instance range_model : MapRange :=
  {| range_order := λ V m, map_to_list m;
     range_order_perm := λ V m, reflexivity (map_to_list m) |}.

Definition ruleLow : threshold := {| MinimumIncoming := 60; MinimumOutgoing := 10 |}.
Definition ruleHigh : threshold := {| MinimumIncoming := 10; MinimumOutgoing := 70 |}.

Definition params_at (backoff limit target : Z) (rules : ref) : Parameters :=
  {| FailureBackOff := backoff; SweepFeeRateLimit := limit;
     SweepConfTarget := target; ChannelRules := rules |}.

Definition day : Z := 86400 * 1000000000.

(** One failed loop out over channel 1, last updated at time 1000. *)
Definition failedOutA : LoopOut :=
  {| OutState := StateFailOffchain; OutLastUpdate := 1000; OutChanSet := [1] |}.

Definition pendingUnrestrictedOut : LoopOut :=
  {| OutState := StateInitiated; OutLastUpdate := 0; OutChanSet := [] |}.

Definition config_at (estimate : Z) (now : Time) (outs : list LoopOut)
    (ins : list LoopIn) : Config :=
  {| LoopOutRestrictions := Ok {| Minimum := 250000; Maximum := 1000000 |};
     EstimateFee := λ _, Ok estimate;
     Liquidity.ListChannels := Ok [chanA; chanB];
     ListLoopOut := Ok outs;
     ListLoopIn := Ok ins;
     Now := now;
     MinimumConfirmations := 3 |}.

(** The map at address 1 is the manager's: rule [ruleLow] on channel 1.
    The maps at 3 and 5 are a caller's: a rule for channel 5, and a rule
    for the channel id 0. *)
Definition stored_heap : Heap :=
  {| rule_cells := {[2%positive := ruleLow; 4%positive := ruleLow]};
     map_cells := {[1%positive := {[1 := Some 2%positive]};
                    3%positive := {[5 := Some 4%positive]};
                    5%positive := {[0 := Some 4%positive]}]} |}.

Definition goodParams : Parameters := params_at day 750 9 (Some 3%positive).
Definition zeroKeyParams : Parameters := params_at day 750 9 (Some 5%positive).

Definition state_at (estimate : Z) (now : Time) (outs : list LoopOut)
    (ins : list LoopIn) : State :=
  {| heap := stored_heap;
     manager := {| cfg := config_at estimate now outs ins;
                   params := params_at day 750 9 (Some 1%positive) |} |}.

(** *** Further channels, records and states *)

(** A public channel whose edge lnd does not know. *)
Definition chanLost : ChannelInfo :=
  {| ChannelID := 9; PubKeyBytes := peerB; Capacity := 300000;
     LocalBalance := 100000; RemoteBalance := 150000; Private := false |}.

(** A pending loop out over channel 2 and a finished one over channel 1. *)
Definition pendingOutB : LoopOut :=
  {| OutState := StateHtlcPublished; OutLastUpdate := 500; OutChanSet := [2] |}.

Definition succeededOutA : LoopOut :=
  {| OutState := StateSuccess; OutLastUpdate := 100; OutChanSet := [1] |}.

(** The manager of [state_at] when the fee estimator is down. *)
Definition state_without_estimate : State :=
  {| heap := stored_heap;
     manager :=
       {| cfg := {| LoopOutRestrictions := Ok {| Minimum := 250000; Maximum := 1000000 |};
                    EstimateFee := λ _, Fail (ErrExternal "fee estimator down");
                    Liquidity.ListChannels := Ok [chanA; chanB];
                    ListLoopOut := Ok [];
                    ListLoopIn := Ok [];
                    Now := 0;
                    MinimumConfirmations := 3 |};
          params := params_at day 750 9 (Some 1%positive) |} |}.

(** The request for channel 1 under [ruleLow] and the restrictions of
    [config_at]. *)
Definition requestA : OutRequest :=
  {| ReqAmount := 250000; OutgoingChanSet := [1]; MaxPrepayRoutingFee := 150;
     MaxSwapRoutingFee := 2500; MaxMinerFee := 15000; MaxSwapFee := 1250;
     MaxPrepayAmount := 30000; ReqSweepConfTarget := 9 |}.

(** The store at start-up: the empty map of the default parameters. *)
Definition initial_heap : Heap :=
  {| rule_cells := ∅; map_cells := {[1%positive := ∅]} |}.

(** A caller's parameters with the rule of [goodParams] and a fee limit
    below the floor. *)
Definition cheapParams : Parameters := params_at day 100 9 (Some 3%positive).

(** *** The loop in command: command lines and a daemon *)

Import Cmd.

Fixpoint flag_value {A : Type} (unset : A) (flags : list (string * A))
    (name : string) : A :=
  match flags with
  | [] => unset
  | (n, v) :: rest => if decide (n = name) then v else flag_value unset rest name
  end.

(** A command line: its string, boolean and number flags and what follows
    them. A flag is set when it is given a value. *)
Definition command_line (strings : list (string * string))
    (bools : list (string * bool)) (numbers : list (string * Z))
    (args : list string) : Context :=
  {| ctx_IsSet := λ name,
       bool_decide (name ∈ strings.*1 ++ bools.*1 ++ numbers.*1);
     ctx_String := flag_value EmptyString strings;
     ctx_Bool := flag_value false bools;
     ctx_Uint64 := flag_value 0 numbers;
     ctx_Args := args |}.

Record quote_model : Type := {
  quote_fee : Z;
  quote_hints : list string
}.

(** A daemon that quotes 3000 for the htlc, cannot estimate the fee above
    one million, refuses less than 250000 and accepts every swap. *)
Definition looprpc_model : Looprpc :=
  {| RouteHint := string;
     InQuoteResponse := quote_model;
     HtlcPublishFeeSat := quote_fee;
     QuoteRouteHints := quote_hints;
     SwapClient := unit;
     GetLoopInQuote := λ _ req,
       if Amt req <? 250000 then Fail (ErrExternal "amount too small")
       else if 1000000 <? Amt req then Ok {| quote_fee := -1; quote_hints := [] |}
       else Ok {| quote_fee := 3000; quote_hints := ["hint of the daemon"] |};
     LoopIn := λ _ req,
       Ok {| Id := "5d1a"; HtlcAddressNp2Wsh := "3Np2";
             HtlcAddressP2Wsh := "bc1q"; ServerMessage := EmptyString |};
     parseAmt := λ s,
       if decide (s = "500000") then Ok 500000
       else if decide (s = "2000000") then Ok 2000000
       else Fail (ErrExternal "invalid amount");
     getClient := λ _, Ok tt;
     labels_Validate := λ label,
       if decide (label = "[reserved]")
       then Some (ErrExternal "label is reserved") else None;
     NewVertexFromStr := λ s,
       if decide (s = "peerA") then Ok peerA
       else Fail (ErrExternal "invalid vertex");
     json_Unmarshal := λ s,
       if decide (s = "[]") then Ok []
       else Fail (ErrExternal "invalid character");
     getInLimits := λ quote,
       {| maxMinerFee := quote_fee quote * 2; maxSwapFee := 1500 |};
     displayInDetails := λ _ _ _, None;
     ShowCommandHelp := λ _ _, None;
     MinerFeeEstimationFailed := -1;
     defaultInitiator := "loop-cli" |}.

Definition ctx_plain : Context :=
  command_line [("amt", "500000")] [] [] [].

Definition ctx_external : Context :=
  command_line [] [("external", true)] [("conf_target", 2 ^ 32)] ["500000"].

Definition ctx_private_with_hints : Context :=
  command_line [("amt", "500000"); ("route_hints", "[]")] [("private", false)] [] [].

Definition ctx_large : Context :=
  command_line [("amt", "2000000")] [] [] [].

(** The swap request of [ctx_plain]. *)
Definition request_plain : LoopInRequest string :=
  {| ReqAmt := 500000; MaxMinerFee := 6000; MaxSwapFee := 1500;
     ReqExternalHtlc := false; HtlcConfTarget := 0; Label := EmptyString;
     Initiator := "loop-cli"; LastHop := None;
     RouteHints := ["hint of the daemon"] |}.

End Examples.

(** ** Machine arithmetic *)

Module GoFacts.

Lemma wrap_int64_id (z : Z) : min_int64 <= z <= max_int64 -> wrap_int64 z = z.
Proof.
  unfold wrap_int64, min_int64, max_int64. intros Hz.
  rewrite Z.mod_small; lia.
Qed.

End GoFacts.

(** ** Properties of the hop-hint selection *)

Module HopHintsProofs.
Import HopHints GoFacts.

Section Selection.
Context `{Btcec}.

Implicit Types (lnd : LndClient) (s : locals) (channels : list ChannelInfo).

Lemma IsPublicNode_spec channels pubKey :
  IsPublicNode channels pubKey = true ↔
  ∀ c, c ∈ channels → PubKeyBytes c = pubKey → Private c = false.
Proof.
  induction channels as [|c rest IH]; simpl.
  - split; [intros _ c Hc; by apply elem_of_nil in Hc | done].
  - destruct (bool_decide (PubKeyBytes c = pubKey)) eqn:Hk;
      destruct (Private c) eqn:Hp; simpl.
    + apply bool_decide_eq_true in Hk. split; [done|].
      intros Hall. specialize (Hall c (list_elem_of_here _ _) Hk). congruence.
    + rewrite IH. split.
      * intros Hall c' [->|Hc']%elem_of_cons; eauto.
      * intros Hall c' Hc'. apply Hall. by right.
    + apply bool_decide_eq_false in Hk. rewrite IH. split.
      * intros Hall c' [->|Hc']%elem_of_cons; [done|eauto].
      * intros Hall c' Hc'. apply Hall. by right.
    + apply bool_decide_eq_false in Hk. rewrite IH. split.
      * intros Hall c' [->|Hc']%elem_of_cons; eauto.
      * intros Hall c' Hc'. apply Hall. by right.
Qed.

(** With the outer [chanInfo] nil the second loop adds nothing: it
    ends at once on an empty channel list, breaks on its guard, or
    panics on the first channel. *)
Lemma pass2_nil_chanInfo lnd amtMSat numMaxHophints channels l s :
  pass2 lnd amtMSat numMaxHophints channels None l s =
    match l with
    | [] => Continue s
    | _ :: _ =>
        if (wrap_int64 (amtMSat * hopHintFactor) <? totalHintBandwidth s)
           || (numMaxHophints <=? Z.of_nat (length (hopHints s)))
        then Break s else Panicked
    end.
Proof.
  destruct l as [|c rest]; [reflexivity|].
  simpl. unfold pass2_body.
  by destruct ((wrap_int64 (amtMSat * hopHintFactor) <? totalHintBandwidth s)
               || (numMaxHophints <=? Z.of_nat (length (hopHints s)))).
Qed.

(** One pass of the first loop keeps the hints it had and adds at most
    one, backed by its channel and built from a [Node2Policy]. *)
Lemma pass1_body_hints lnd amtMSat include_nodes channels c s s' :
  c ∈ channels →
  pass1_body lnd amtMSat include_nodes channels c s = Continue s' →
  hopHints s' = hopHints s
  ∨ ∃ h, hopHints s' = hopHints s ++ [[h]]
         ∧ hint_backed channels h ∧ hint_reads_node2 lnd channels h.
Proof.
  intros Hc. unfold pass1_body, chanCanBeHopHint.
  destruct (IsPublicNode channels (PubKeyBytes c)) eqn:Hpub; simpl;
    repeat case_match; intros ?; simplify_eq; simpl; auto.
  all: right; eexists; split; [done|]; split.
  all: try (exists c; split_and!; try done; by apply IsPublicNode_spec).
  all: by repeat esplit.
Qed.

Lemma pass1_hints (P : HopHint → Prop) lnd amtMSat include_nodes channels l s s' :
  (∀ h, hint_backed channels h → hint_reads_node2 lnd channels h → P h) →
  (∀ c, c ∈ l → c ∈ channels) →
  Forall (Forall P) (hopHints s) →
  pass1 lnd amtMSat include_nodes channels l s = Continue s' →
  Forall (Forall P) (hopHints s').
Proof.
  intros HP. revert s. induction l as [|c rest IH]; intros s Hsub Hs; simpl.
  - intros ?. by simplify_eq.
  - destruct (pass1_body lnd amtMSat include_nodes channels c s) as [s1| | |] eqn:Hb;
      try done.
    intros Hrest. eapply (IH s1); [| |done].
    + intros c' Hc'. apply Hsub. by right.
    + apply pass1_body_hints in Hb as [->|(h & -> & Hbacked & Hreads)];
        [done| |apply Hsub; by left].
      apply Forall_app. split; [done|]. repeat constructor. by apply HP.
Qed.

Lemma pass1_no_break lnd amtMSat include_nodes channels l s s' :
  pass1 lnd amtMSat include_nodes channels l s ≠ Break s'.
Proof.
  revert s. induction l as [|c rest IH]; intros s; simpl; [done|].
  destruct (pass1_body lnd amtMSat include_nodes channels c s) eqn:Hb; try done.
  exfalso. revert Hb. unfold pass1_body. repeat case_match; done.
Qed.

(** What [SelectHopHints] returns is what its first loop collected. *)
Lemma SelectHopHints_returns_pass1 lnd amtMSat numMaxHophints include_nodes hs :
  SelectHopHints lnd amtMSat numMaxHophints include_nodes = Ret (Ok hs) →
  ∃ channels s,
    ListChannels lnd = Ok channels
    ∧ pass1 lnd amtMSat include_nodes channels channels init_locals = Continue s
    ∧ hs = hopHints s.
Proof.
  unfold SelectHopHints.
  destruct (ListChannels lnd) as [channels|]; [|done].
  destruct (numMaxHophints <? 0); [done|].
  destruct (pass1 lnd amtMSat include_nodes channels channels init_locals)
    as [s|s| |] eqn:Hp1; try done.
  - destruct (numMaxHophints <=? Z.of_nat (length (hopHints s))).
    + intros ?; simplify_eq. eauto.
    + rewrite pass2_nil_chanInfo. destruct channels; [intros ?; simplify_eq; eauto|].
      destruct ((wrap_int64 (amtMSat * hopHintFactor) <? totalHintBandwidth s)
                || (numMaxHophints <=? Z.of_nat (length (hopHints s))));
        [|done].
      intros ?; simplify_eq. eauto.
  - by apply pass1_no_break in Hp1.
  - intros ?. simplify_eq.
    exfalso. revert Hp1. clear.
    generalize init_locals. generalize channels at 2.
    intros l. induction l as [|c rest IH]; intros s; simpl; [done|].
    destruct (pass1_body lnd amtMSat include_nodes channels c s) eqn:Hb; try done.
    + apply IH.
    + intros ?; simplify_eq. revert Hb. unfold pass1_body.
      repeat case_match; done.
Qed.

(** When the first loop reaches the key of a channel it would hint and
    the key does not parse, the loop returns that error. *)
Lemma pass1_body_key_failure lnd amtMSat include_nodes channels c s e edge1 edge2 edge3 :
  (RemoteBalance c <? amtMSat) = false →
  excluded include_nodes c = false →
  IsPublicNode channels (PubKeyBytes c) = true →
  GetChanInfo lnd (calls s) (ChannelID c) = Ok edge1 →
  GetChanInfo lnd (S (calls s)) (ChannelID c) = Ok edge2 →
  (if bool_decide (PubKeyBytes c = Node1 edge2)
   then Node1Policy edge2 else Node2Policy edge2) ≠ None →
  GetChanInfo lnd (S (S (calls s))) (ChannelID c) = Ok edge3 →
  ParsePubKey (PubKeyBytes c) = Fail e →
  pass1_body lnd amtMSat include_nodes channels c s = Return (Fail e).
Proof.
  intros Hbal Hexcl Hpub H1 H2 Hpol H3 Hkey.
  unfold pass1_body, chanCanBeHopHint, FetchChannelEdgesByID.
  rewrite Hbal, Hexcl, H1, Hpub, H2. simpl.
  rewrite bool_decide_eq_false_2 by done. simpl.
  by rewrite H3, Hkey.
Qed.

(** The second loop, had it an edge to read, would skip a channel whose
    key does not parse and keep the hints it has. *)
Lemma pass2_body_key_failure lnd amtMSat numMaxHophints channels c s e edge edge2 :
  ((wrap_int64 (amtMSat * hopHintFactor) <? totalHintBandwidth s)
   || (numMaxHophints <=? Z.of_nat (length (hopHints s)))) = false →
  ChannelPoint edge ∉ hopHintChans s →
  IsPublicNode channels (PubKeyBytes c) = true →
  GetChanInfo lnd (calls s) (ChannelID c) = Ok edge2 →
  (if bool_decide (PubKeyBytes c = Node1 edge2)
   then Node1Policy edge2 else Node2Policy edge2) ≠ None →
  ParsePubKey (PubKeyBytes c) = Fail e →
  pass2_body lnd amtMSat numMaxHophints channels (Some edge) c s
  = Continue (with_calls s (S (calls s))).
Proof.
  intros Hguard Hsel Hpub H1 Hpol Hkey.
  unfold pass2_body, chanCanBeHopHint, FetchChannelEdgesByID.
  rewrite Hguard, bool_decide_eq_false_2 by done.
  rewrite Hpub, H1. simpl.
  rewrite bool_decide_eq_false_2 by done.
  by rewrite Hkey.
Qed.

(** C2: when the first loop ends with fewer than [numMaxHophints] hints,
    the channel list is not empty and the collected bandwidth does not
    exceed the product [amtMSat * hopHintFactor] the code compares it
    with, the body of the second loop dereferences the [chanInfo] that is
    still nil, and [SelectHopHints] panics instead of returning. *)
Theorem C2_second_pass_dereferences_nil_chanInfo
    lnd amtMSat numMaxHophints include_nodes channels s :
  ListChannels lnd = Ok channels →
  pass1 lnd amtMSat include_nodes channels channels init_locals = Continue s →
  Z.of_nat (length (hopHints s)) < numMaxHophints →
  channels ≠ [] →
  ¬ (wrap_int64 (amtMSat * hopHintFactor) < totalHintBandwidth s) →
  (∃ c, head channels = Some c
        ∧ pass2_body lnd amtMSat numMaxHophints channels None c s = Panicked)
  ∧ SelectHopHints lnd amtMSat numMaxHophints include_nodes = Panic.
Proof.
  intros Hlist Hp1 Hlen Hne Hbw.
  assert (Hguard :
    ((wrap_int64 (amtMSat * hopHintFactor) <? totalHintBandwidth s)
     || (numMaxHophints <=? Z.of_nat (length (hopHints s)))) = false).
  { apply orb_false_intro; [apply Z.ltb_ge | apply Z.leb_gt]; lia. }
  split.
  - destruct channels as [|c rest]; [done|].
    exists c. split; [done|]. unfold pass2_body. by rewrite Hguard.
  - unfold SelectHopHints. rewrite Hlist.
    assert ((numMaxHophints <? 0) = false) as -> by (apply Z.ltb_ge; lia).
    rewrite Hp1.
    assert ((numMaxHophints <=? Z.of_nat (length (hopHints s))) = false) as ->
      by (apply Z.leb_gt; lia).
    rewrite pass2_nil_chanInfo, Hguard. by destruct channels.
Qed.

(** C3 (amended): every hint [SelectHopHints] returns is for a listed
    channel whose counterparty has no private channel in the node's
    channel set; the hinted channel itself is therefore public, and the
    counterparty need not have any other channel. *)
Theorem C3_hinted_peer_has_no_private_channel
    lnd amtMSat numMaxHophints include_nodes hs group h :
  SelectHopHints lnd amtMSat numMaxHophints include_nodes = Ret (Ok hs) →
  group ∈ hs → h ∈ group →
  ∃ channels, ListChannels lnd = Ok channels ∧ hint_backed channels h.
Proof.
  intros (channels & s & Hlist & Hp1 & ->)%SelectHopHints_returns_pass1 Hg Hh.
  exists channels. split; [done|].
  apply (pass1_hints (hint_backed channels)) in Hp1; [|done|done|by constructor].
  rewrite Forall_forall in Hp1. specialize (Hp1 _ Hg).
  rewrite Forall_forall in Hp1. by apply Hp1.
Qed.

(** The fee fields of every returned hint are those of node 2 of an edge
    of the hinted channel, whichever side the counterparty is on. *)
Lemma SelectHopHints_hints_read_node2
    lnd amtMSat numMaxHophints include_nodes hs group h :
  SelectHopHints lnd amtMSat numMaxHophints include_nodes = Ret (Ok hs) →
  group ∈ hs → h ∈ group →
  ∃ channels, ListChannels lnd = Ok channels ∧ hint_reads_node2 lnd channels h.
Proof.
  intros (channels & s & Hlist & Hp1 & ->)%SelectHopHints_returns_pass1 Hg Hh.
  exists channels. split; [done|].
  apply (pass1_hints (hint_reads_node2 lnd channels)) in Hp1;
    [|done|done|by constructor].
  rewrite Forall_forall in Hp1. specialize (Hp1 _ Hg).
  rewrite Forall_forall in Hp1. by apply Hp1.
Qed.

(** Where twice the amount is an int64, the product the second loop
    compares with is twice the amount. *)
Lemma hopHintFactor_product amtMSat :
  min_int64 <= 2 * amtMSat <= max_int64 →
  wrap_int64 (amtMSat * hopHintFactor) = 2 * amtMSat.
Proof. intros Hrange. unfold hopHintFactor. rewrite wrap_int64_id; lia. Qed.

End Selection.

Import Examples.

(** C1: with room for one hint and two channels that each carry the
    amount, the first loop emits both hints and both are returned. *)
Theorem C1_first_pass_exceeds_numMaxHophints :
  SelectHopHints (lnd_of [chanA; chanB]) 100000 1 None = Ret (Ok [[hintA]; [hintB]])
  ∧ 1 < Z.of_nat (length [[hintA]; [hintB]]).
Proof. split; [vm_compute; reflexivity | simpl; lia]. Qed.

Lemma C2_second_pass_dereferences_nil_chanInfo_witness :
  (∃ c, head [chanBad] = Some c
        ∧ pass2_body (lnd_of [chanBad]) 100000 1 [chanBad] None c init_locals = Panicked)
  ∧ SelectHopHints (lnd_of [chanBad]) 100000 1 None = Panic.
Proof.
  apply (C2_second_pass_dereferences_nil_chanInfo
           (lnd_of [chanBad]) 100000 1 None [chanBad] init_locals).
  - reflexivity.
  - reflexivity.
  - simpl. lia.
  - discriminate.
  - vm_compute. discriminate.
Defined.

(** C3 as stated fails: the only channel of the node is public and is
    hinted, and its counterparty has no other channel. *)
Lemma C3_single_public_channel_is_hinted :
  ¬ hints_have_other_public_channel (lnd_of [chanA]) 100000 1 None.
Proof.
  intros Hclaim.
  destruct (Hclaim [chanA] [[hintA]] [hintA] hintA) as (c & Hc & _ & c' & Hc' & Hne & _).
  - reflexivity.
  - vm_compute. reflexivity.
  - apply list_elem_of_here.
  - apply list_elem_of_here.
  - apply list_elem_of_singleton in Hc, Hc'. by subst.
Qed.

Lemma C3_hinted_peer_has_no_private_channel_witness :
  ∃ channels, ListChannels (lnd_of [chanA; chanB]) = Ok channels
              ∧ hint_backed channels hintB.
Proof.
  apply (C3_hinted_peer_has_no_private_channel
           (lnd_of [chanA; chanB]) 100000 1 None [[hintA]; [hintB]] [hintB] hintB).
  - vm_compute. reflexivity.
  - apply list_elem_of_further, list_elem_of_here.
  - apply list_elem_of_here.
Defined.

(** C9: the counterparty of the hinted channel is node 1 of its edge, and
    [chanCanBeHopHint] finds node 1's policy, yet the hint carries the
    fees and the time-lock delta of node 2, the local node. *)
Theorem C9_hint_carries_node2_policy :
  chanCanBeHopHint (lnd_of [chanA]) 1 [chanA] chanA None
    = Ret (Some peerPolicy, true, 2%nat)
  ∧ SelectHopHints (lnd_of [chanA]) 100000 1 None = Ret (Ok [[hintA]])
  ∧ (FeeBaseMSat hintA, FeeProportionalMillionths hintA, CLTVExpiryDelta hintA)
    = (to_uint32 (FeeBaseMsat ourPolicy), to_uint32 (FeeRateMilliMsat ourPolicy),
       to_uint16 (TimeLockDelta ourPolicy))
  ∧ FeeBaseMSat hintA ≠ to_uint32 (FeeBaseMsat peerPolicy)
  ∧ FeeProportionalMillionths hintA ≠ to_uint32 (FeeRateMilliMsat peerPolicy)
  ∧ CLTVExpiryDelta hintA ≠ to_uint16 (TimeLockDelta peerPolicy).
Proof. split_and!; vm_compute; (reflexivity || discriminate). Qed.

(** C10: the first channel is too small for the first loop and its key
    does not parse; the first loop returns one hint, for the other
    channel, without error. The second loop starts with the first channel
    and the call panics there, instead of skipping that channel and
    returning the hint. *)
Theorem C10_second_pass_key_failure_panics :
  ParsePubKey (PubKeyBytes chanBad) = Fail (ErrExternal "malformed public key")
  ∧ (∃ s, pass1 (lnd_of [chanBad; chanA]) 100000 None [chanBad; chanA]
            [chanBad; chanA] init_locals = Continue s
          ∧ hopHints s = [[hintA]]
          ∧ pass2_body (lnd_of [chanBad; chanA]) 100000 3 [chanBad; chanA]
              None chanBad s = Panicked)
  ∧ SelectHopHints (lnd_of [chanBad; chanA]) 100000 3 None = Panic.
Proof.
  split_and!.
  - reflexivity.
  - eexists. split_and!; vm_compute; reflexivity.
  - vm_compute. reflexivity.
Qed.

End HopHintsProofs.

(** ** Properties of the liquidity manager *)

Module LiquidityProofs.
Import Liquidity GoFacts.

Section Suggestions.
Context `{Loopdb} `{Rules} `{MapRange}.

Implicit Types (st : State) (m : Manager) (h : Heap) (p q : Parameters).
Implicit Types (loopOut : list LoopOut) (loopIn : list LoopIn).

Lemma scan_loop_out_unrestricted cutoff loopOut existingOut failedOut o :
  o ∈ loopOut → unrestricted_out o →
  scan_loop_out cutoff loopOut existingOut failedOut = None.
Proof.
  intros Ho [Hpending Hset].
  revert existingOut failedOut.
  induction loopOut as [|o' rest IH]; intros existingOut failedOut.
  - by apply elem_of_nil in Ho.
  - simpl. apply elem_of_cons in Ho as [<-|Ho].
    + rewrite bool_decide_eq_false_2 by (rewrite Hpending; auto).
      rewrite Hset. reflexivity.
    + repeat case_match; auto.
Qed.

Lemma scan_loop_in_unrestricted loopIn existingIn i :
  i ∈ loopIn → unrestricted_in i →
  scan_loop_in loopIn existingIn = None.
Proof.
  intros Hi [Hpending Hhop].
  revert existingIn.
  induction loopIn as [|i' rest IH]; intros existingIn.
  - by apply elem_of_nil in Hi.
  - simpl. apply elem_of_cons in Hi as [<-|Hi].
    + rewrite bool_decide_eq_false_2 by (rewrite Hpending; auto).
      by rewrite Hhop.
    + repeat case_match; auto.
Qed.

Lemma getEligibleChannels_unrestricted m loopOut loopIn :
  (∃ o, o ∈ loopOut ∧ unrestricted_out o) ∨ (∃ i, i ∈ loopIn ∧ unrestricted_in i) →
  getEligibleChannels m loopOut loopIn = Ok [].
Proof.
  intros Hun. unfold getEligibleChannels.
  destruct Hun as [(o & Ho & Hun)|(i & Hi & Hun)].
  - by erewrite scan_loop_out_unrestricted.
  - destruct (scan_loop_out _ loopOut ∅ ∅) as [[existingOut failedOut]|]; [|done].
    by erewrite scan_loop_in_unrestricted.
Qed.

(** C5: when the fee estimate for [SweepConfTarget] is obtained and
    exceeds [SweepFeeRateLimit], [SuggestSwaps] returns an empty list of
    swap requests and no error. *)
Theorem C5_fee_estimate_over_limit_suggests_nothing st estimate :
  EstimateFee (cfg (manager st)) (SweepConfTarget (params (manager st))) = Ok estimate →
  SweepFeeRateLimit (params (manager st)) < estimate →
  SuggestSwaps st = Ret (Ok []).
Proof.
  intros Hfee Hover. unfold SuggestSwaps.
  case_bool_decide; [done|].
  rewrite Hfee.
  by assert ((SweepFeeRateLimit (params (manager st)) <? estimate) = true) as ->
    by (apply Z.ltb_lt; lia).
Qed.

(** C6: when the fee estimate, the restrictions and both swap listings
    are obtained, and some pending loop out has an empty outgoing channel
    set or some pending loop in has no last hop, [SuggestSwaps] returns
    an empty list and no error, whatever rules are stored. *)
Theorem C6_unrestricted_pending_swap_suggests_nothing
    st estimate restrictions loopOut loopIn :
  EstimateFee (cfg (manager st)) (SweepConfTarget (params (manager st))) = Ok estimate →
  LoopOutRestrictions (cfg (manager st)) = Ok restrictions →
  ListLoopOut (cfg (manager st)) = Ok loopOut →
  ListLoopIn (cfg (manager st)) = Ok loopIn →
  (∃ o, o ∈ loopOut ∧ unrestricted_out o) ∨ (∃ i, i ∈ loopIn ∧ unrestricted_in i) →
  SuggestSwaps st = Ret (Ok []).
Proof.
  intros Hfee Hrestr Hout Hin Hun. unfold SuggestSwaps.
  case_bool_decide; [done|].
  rewrite Hfee. case_match; [done|].
  rewrite Hrestr, Hout, Hin.
  by rewrite getEligibleChannels_unrestricted.
Qed.

(** *** The three maps of getEligibleChannels *)

Lemma mark_failed_lookup failedAt chanSet (failedOut : gmap ShortChannelID Time) k :
  is_Some (mark_failed failedAt chanSet failedOut !! k) ↔
  is_Some (failedOut !! k) ∨ k ∈ chanSet.
Proof.
  unfold mark_failed, NewShortChanIDFromInt. revert failedOut.
  induction chanSet as [|id rest IH]; intros failedOut; simpl.
  - rewrite elem_of_nil. tauto.
  - rewrite IH, elem_of_cons. destruct (decide (id = k)) as [->|Hne].
    + rewrite lookup_insert_eq. split; [auto|]. intros _. left. eauto.
    + rewrite lookup_insert_ne by done. split; [tauto|].
      intros [?|[?|?]]; auto; congruence.
Qed.

Lemma mark_existing_lookup chanSet (existingOut : gmap ShortChannelID bool) k :
  default false (mark_existing chanSet existingOut !! k) = true ↔
  default false (existingOut !! k) = true ∨ k ∈ chanSet.
Proof.
  unfold mark_existing, NewShortChanIDFromInt. revert existingOut.
  induction chanSet as [|id rest IH]; intros existingOut; simpl.
  - rewrite elem_of_nil. tauto.
  - rewrite IH, elem_of_cons. destruct (decide (id = k)) as [->|Hne].
    + rewrite lookup_insert_eq. simpl. split; auto.
    + rewrite lookup_insert_ne by done. split; [tauto|].
      intros [?|[?|?]]; auto; congruence.
Qed.

Lemma scan_loop_out_some cutoff loopOut existingOut failedOut existingOut' failedOut' :
  scan_loop_out cutoff loopOut existingOut failedOut = Some (existingOut', failedOut') →
  (∀ k, is_Some (failedOut' !! k) ↔
        is_Some (failedOut !! k) ∨ ∃ o, o ∈ loopOut ∧ fails_channel cutoff k o)
  ∧ (∀ k, default false (existingOut' !! k) = true ↔
          default false (existingOut !! k) = true
          ∨ ∃ o, o ∈ loopOut ∧ holds_channel k o).
Proof.
  revert existingOut failedOut.
  induction loopOut as [|o rest IH]; intros existingOut failedOut; simpl.
  - intros ?; simplify_eq. split; intros k; split; auto.
    + intros [?|(o & Ho & _)]; [done|]. by apply elem_of_nil in Ho.
    + intros [?|(o & Ho & _)]; [done|]. by apply elem_of_nil in Ho.
  - set (failedOut1 :=
           if bool_decide (OutState o = StateFailOffchainPayments)
           then if Time_After (OutLastUpdate o) cutoff
                then mark_failed (OutLastUpdate o) (OutChanSet o) failedOut
                else failedOut
           else failedOut).
    assert (Hfailed : ∀ k, is_Some (failedOut1 !! k) ↔
                           is_Some (failedOut !! k) ∨ fails_channel cutoff k o).
    { intros k. unfold failedOut1, fails_channel, Time_After.
      case_bool_decide as Hstate.
      - destruct (cutoff <? OutLastUpdate o) eqn:Hafter.
        + apply Z.ltb_lt in Hafter. rewrite mark_failed_lookup. tauto.
        + apply Z.ltb_ge in Hafter. split; [auto|]. intros [?|(_ & ? & _)]; [done|lia].
      - split; [auto|]. intros [?|(? & _)]; done. }
    clearbody failedOut1.
    case_bool_decide as Htype.
    + intros (Hf & He)%IH. split; intros k.
      * rewrite Hf, Hfailed. split.
        -- intros [[?|?]|(o' & ? & ?)]; eauto using list_elem_of_here.
           right. exists o'. split; [by right|done].
        -- intros [?|(o' & [->|?]%elem_of_cons & ?)]; eauto.
      * rewrite He. split.
        -- intros [?|(o' & ? & ?)]; [by left|].
           right. exists o'. split; [by right|done].
        -- intros [?|(o' & [->|?]%elem_of_cons & Hhold)]; eauto.
           destruct Hhold as [? _]. done.
    + case_bool_decide as Hlen; [done|].
      assert (StateType (OutState o) = StateTypePending) as Hpending
        by (by destruct (decide (StateType (OutState o) = StateTypePending))).
      intros (Hf & He)%IH. split; intros k.
      * rewrite Hf, Hfailed. split.
        -- intros [[?|?]|(o' & ? & ?)]; eauto using list_elem_of_here.
           right. exists o'. split; [by right|done].
        -- intros [?|(o' & [->|?]%elem_of_cons & ?)]; eauto.
      * rewrite He, mark_existing_lookup. unfold holds_channel. split.
        -- intros [[?|?]|(o' & ? & ?)]; eauto using list_elem_of_here.
           right. exists o'. split; [by right|done].
        -- intros [?|(o' & [->|?]%elem_of_cons & Hhold)]; eauto.
           destruct Hhold as [_ ?]. auto.
Qed.

Lemma scan_loop_out_restricted cutoff loopOut existingOut failedOut :
  (∀ o, o ∈ loopOut → ¬ unrestricted_out o) →
  is_Some (scan_loop_out cutoff loopOut existingOut failedOut).
Proof.
  revert existingOut failedOut.
  induction loopOut as [|o rest IH]; intros existingOut failedOut Hall; simpl; [eauto|].
  assert (∀ o', o' ∈ rest → ¬ unrestricted_out o') as Hrest
    by (intros o' Ho'; apply Hall; by right).
  case_bool_decide as Htype; [by apply IH|].
  case_bool_decide as Hlen; [|by apply IH].
  exfalso. apply (Hall o (list_elem_of_here _ _)). split.
  - by destruct (decide (StateType (OutState o) = StateTypePending)).
  - by destruct (OutChanSet o).
Qed.

Lemma scan_loop_in_some loopIn existingIn existingIn' :
  scan_loop_in loopIn existingIn = Some existingIn' →
  ∀ v, default false (existingIn' !! v) = true ↔
       default false (existingIn !! v) = true ∨ ∃ i, i ∈ loopIn ∧ holds_peer v i.
Proof.
  revert existingIn.
  induction loopIn as [|i rest IH]; intros existingIn; simpl.
  - intros ? v; simplify_eq. split; [auto|].
    intros [?|(i & Hi & _)]; [done|]. by apply elem_of_nil in Hi.
  - case_bool_decide as Htype.
    + intros Hscan v. rewrite (IH _ Hscan). split.
      * intros [?|(i' & ? & ?)]; [by left|].
        right. exists i'. split; [by right|done].
      * intros [?|(i' & [->|?]%elem_of_cons & Hhold)]; eauto.
        destruct Hhold as [? _]. done.
    + destruct (LastHop i) as [lastHop|] eqn:Hhop; [|done].
      assert (StateType (InState i) = StateTypePending) as Hpending
        by (by destruct (decide (StateType (InState i) = StateTypePending))).
      intros Hscan v. rewrite (IH _ Hscan). unfold holds_peer. split.
      * intros [Hv|(i' & ? & ?)].
        -- destruct (decide (lastHop = v)) as [->|Hne].
           ++ right. exists i. split; [by left|done].
           ++ rewrite lookup_insert_ne in Hv by done. by left.
        -- right. exists i'. split; [by right|done].
      * intros [Hv|(i' & [->|?]%elem_of_cons & Hhold)]; eauto.
        -- destruct (decide (lastHop = v)) as [->|Hne].
           ++ left. by rewrite lookup_insert_eq.
           ++ left. by rewrite lookup_insert_ne.
        -- destruct Hhold as [_ Heq]. rewrite Hhop in Heq. simplify_eq.
           left. by rewrite lookup_insert_eq.
Qed.

Lemma scan_loop_in_restricted loopIn existingIn :
  (∀ i, i ∈ loopIn → ¬ unrestricted_in i) →
  is_Some (scan_loop_in loopIn existingIn).
Proof.
  revert existingIn.
  induction loopIn as [|i rest IH]; intros existingIn Hall; simpl; [eauto|].
  assert (∀ i', i' ∈ rest → ¬ unrestricted_in i') as Hrest
    by (intros i' Hi'; apply Hall; by right).
  case_bool_decide as Htype; [by apply IH|].
  destruct (LastHop i) eqn:Hhop; [by apply IH|].
  exfalso. apply (Hall i (list_elem_of_here _ _)). split; [|done].
  by destruct (decide (StateType (InState i) = StateTypePending)).
Qed.

Lemma elem_of_filter_channels existingOut existingIn failedOut channels eligible c :
  c ∈ filter_channels existingOut existingIn failedOut channels eligible ↔
  c ∈ eligible
  ∨ (c ∈ channels
     ∧ failedOut !! ChannelID c = None
     ∧ default false (existingOut !! ChannelID c) = false
     ∧ default false (existingIn !! PubKeyBytes c) = false).
Proof.
  revert eligible.
  induction channels as [|c' rest IH]; intros eligible; simpl.
  - split; [auto|]. intros [?|[Hc _]]; [done|]. by apply elem_of_nil in Hc.
  - unfold NewShortChanIDFromInt.
    case_bool_decide as Hfail.
    { rewrite IH. split.
      - intros [?|(? & ?)]; [by left|]. right. split; [by right|done].
      - intros [?|([->|?]%elem_of_cons & Hf & Ho & Hi)]; [by left| |by right].
        destruct Hfail as [? Hfail]. congruence. }
    apply eq_None_not_Some in Hfail.
    destruct (default false (existingOut !! ChannelID c')) eqn:Hout.
    { rewrite IH. split.
      - intros [?|(? & ?)]; [by left|]. right. split; [by right|done].
      - intros [?|([->|?]%elem_of_cons & Hf & Ho & Hi)]; [by left| |by right].
        congruence. }
    destruct (default false (existingIn !! PubKeyBytes c')) eqn:Hin.
    { rewrite IH. split.
      - intros [?|(? & ?)]; [by left|]. right. split; [by right|done].
      - intros [?|([->|?]%elem_of_cons & Hf & Ho & Hi)]; [by left| |by right].
        congruence. }
    rewrite IH, elem_of_app, list_elem_of_singleton. split.
    + intros [[?| ->]|(? & ?)]; [by left| |].
      * right. split; [by left|done].
      * right. split; [by right|done].
    + intros [?|([->|?]%elem_of_cons & ?)]; eauto.
Qed.

Lemma failure_cutoff m :
  min_int64 < FailureBackOff (params m) <= max_int64 →
  Time_Add (Now (cfg m)) (wrap_int64 (FailureBackOff (params m) * -1))
  = Now (cfg m) - FailureBackOff (params m).
Proof.
  intros Hrange. unfold Time_Add.
  rewrite wrap_int64_id; [lia|]. unfold min_int64, max_int64 in *. lia.
Qed.

(** C7: a loop-out record in the off-chain-payment-failure state with
    last update [T] keeps every channel of its channel set out of the
    eligible channels while [now < T + FailureBackOff]; from
    [now = T + FailureBackOff] on such a channel is eligible again when
    it is listed and nothing else excludes it: no unrestricted swap is
    pending, no pending loop out holds the channel, no pending loop in
    holds its peer, and every other failed loop out over the channel is
    past its own back-off. [FailureBackOff] is an int64 other than the
    least one, whose negation the code cannot represent. *)
Theorem C7_failed_channels_backed_off_for_FailureBackOff
    m loopOut loopIn out channel :
  out ∈ loopOut →
  OutState out = StateFailOffchainPayments →
  ChannelID channel ∈ OutChanSet out →
  min_int64 < FailureBackOff (params m) <= max_int64 →
  (Now (cfg m) < OutLastUpdate out + FailureBackOff (params m) →
   ∀ eligible,
     getEligibleChannels m loopOut loopIn = Ok eligible → channel ∉ eligible)
  ∧ (OutLastUpdate out + FailureBackOff (params m) <= Now (cfg m) →
     (∀ o, o ∈ loopOut → ¬ unrestricted_out o) →
     (∀ i, i ∈ loopIn → ¬ unrestricted_in i) →
     (∀ o, o ∈ loopOut → ¬ holds_channel (ChannelID channel) o) →
     (∀ i, i ∈ loopIn → ¬ holds_peer (PubKeyBytes channel) i) →
     (∀ o, o ∈ loopOut → o ≠ out →
           OutState o = StateFailOffchainPayments →
           ChannelID channel ∈ OutChanSet o →
           OutLastUpdate o + FailureBackOff (params m) <= Now (cfg m)) →
     ∀ channels,
       ListChannels (cfg m) = Ok channels → channel ∈ channels →
       ∃ eligible,
         getEligibleChannels m loopOut loopIn = Ok eligible ∧ channel ∈ eligible).
Proof.
  intros Hout Hstate Hid Hrange.
  unfold getEligibleChannels. rewrite failure_cutoff by done.
  set (cutoff := Now (cfg m) - FailureBackOff (params m)).
  split.
  - intros Hnow eligible.
    destruct (scan_loop_out cutoff loopOut ∅ ∅) as [[existingOut failedOut]|] eqn:Hscan;
      [|intros ?; simplify_eq; apply not_elem_of_nil].
    apply scan_loop_out_some in Hscan as [Hfailed _].
    assert (is_Some (failedOut !! ChannelID channel)) as [t Ht].
    { apply Hfailed. right. exists out. split; [done|].
      split_and!; [done| unfold cutoff; lia | done]. }
    destruct (scan_loop_in loopIn ∅) as [existingIn|];
      [|intros ?; simplify_eq; apply not_elem_of_nil].
    destruct (ListChannels (cfg m)) as [channels|]; [|done].
    intros ? Hin; simplify_eq.
    apply elem_of_filter_channels in Hin as [Hin|(_ & Hnone & _)].
    + by apply elem_of_nil in Hin.
    + congruence.
  - intros Hnow Hno_out Hno_in Hfree_out Hfree_in Hothers channels Hlist Hlisted.
    destruct (scan_loop_out_restricted cutoff loopOut ∅ ∅ Hno_out)
      as [[existingOut failedOut] Hscan_out].
    destruct (scan_loop_in_restricted loopIn ∅ Hno_in) as [existingIn Hscan_in].
    rewrite Hscan_out, Hscan_in, Hlist.
    eexists. split; [done|].
    apply scan_loop_out_some in Hscan_out as [Hfailed Hexisting].
    pose proof (scan_loop_in_some _ _ _ Hscan_in) as Hpeers.
    apply elem_of_filter_channels. right. split_and!; [done| | |].
    + apply eq_None_not_Some. intros [[]|(o & Ho & Hs & Hcut & Hk)]%Hfailed.
      { by rewrite lookup_empty in *. }
      unfold cutoff in Hcut. destruct (decide (o = out)) as [->|Hne]; [lia|].
      specialize (Hothers o Ho Hne Hs Hk). lia.
    + apply not_true_is_false. intros [Hk|(o & Ho & Hhold)]%Hexisting.
      * by rewrite lookup_empty in Hk.
      * by apply (Hfree_out o).
    + apply not_true_is_false. intros [Hk|(i & Hi & Hhold)]%Hpeers.
      * by rewrite lookup_empty in Hk.
      * by apply (Hfree_in i).
Qed.

End Suggestions.

Section ParameterStore.
Context `{Loopdb} `{Rules} `{MapRange}.

Implicit Types (st : State) (h : Heap) (p q : Parameters) (r : ref).
Implicit Types (entries : list (Z * ref)) (m : gmap Z ref).

Lemma elem_of_range_order {V} (m : gmap Z V) k v :
  (k, v) ∈ range_order m ↔ m !! k = Some v.
Proof. by rewrite (range_order_perm V m), elem_of_map_to_list. Qed.

Lemma NoDup_range_order {V} (m : gmap Z V) : NoDup (range_order m).*1.
Proof. rewrite (range_order_perm V m). apply NoDup_fst_map_to_list. Qed.

Lemma rules_view_lookup h p k :
  rules_view h p !! k = deref_rule h <$> map_of h (ChannelRules p) !! k.
Proof. unfold rules_view. apply lookup_fmap. Qed.

Lemma rules_present_entries h p k r :
  rules_present h p →
  (k, r) ∈ range_order (map_of h (ChannelRules p)) →
  is_Some (deref_rule h r).
Proof.
  intros Hpresent Hin%elem_of_range_order.
  apply (Hpresent k). by rewrite rules_view_lookup, Hin.
Qed.

(** *** validate *)

Lemma validate_rules_returns h entries :
  (∀ k r, (k, r) ∈ entries → is_Some (deref_rule h r)) →
  validate_rules h entries ≠ Panic.
Proof.
  induction entries as [|[k r] rest IH]; intros Hall; simpl; [done|].
  destruct (ToUint64 k =? 0); [done|].
  destruct (Hall k r (list_elem_of_here _ _)) as [v ->].
  destruct (rule_validate v); [done|].
  apply IH. intros k' r' Hin. apply (Hall k' r'). by right.
Qed.

Lemma validate_rules_accepts h entries :
  validate_rules h entries = Ret None →
  ∀ k r, (k, r) ∈ entries →
    k ≠ 0 ∧ ∃ v, deref_rule h r = Some v ∧ rule_validate v = None.
Proof.
  induction entries as [|[k0 r0] rest IH]; simpl.
  - intros _ k r Hin. by apply elem_of_nil in Hin.
  - unfold ToUint64.
    destruct (k0 =? 0) eqn:Hzero; [done|]. apply Z.eqb_neq in Hzero.
    destruct (deref_rule h r0) as [v|] eqn:Hderef; [|done].
    destruct (rule_validate v) eqn:Hvalid; [done|].
    intros Hrest k r [?|Hin]%elem_of_cons; [simplify_eq; eauto|].
    by apply IH.
Qed.

Lemma validate_accepts h p minConfs :
  validate h p minConfs = Ret None →
  rules_present h p
  ∧ (∀ k r, map_of h (ChannelRules p) !! k = Some r →
       k ≠ 0 ∧ ∃ v, deref_rule h r = Some v ∧ rule_validate v = None)
  ∧ AbsoluteFeePerKwFloor <= SweepFeeRateLimit p
  ∧ minConfs <= SweepConfTarget p.
Proof.
  unfold validate.
  destruct (validate_rules h _) as [[err|]|] eqn:Hrules; try done.
  pose proof (validate_rules_accepts _ _ Hrules) as Hok.
  destruct (SweepFeeRateLimit p <? AbsoluteFeePerKwFloor) eqn:Hfee; [done|].
  destruct (SweepConfTarget p <? minConfs) eqn:Hconf; [done|].
  intros _. apply Z.ltb_ge in Hfee, Hconf. split_and!; [|eauto|done|done].
  - intros k v. rewrite rules_view_lookup.
    destruct (map_of h (ChannelRules p) !! k) as [r|] eqn:Hk; [|done].
    intros ?; simplify_eq/=.
    apply elem_of_range_order in Hk.
    destruct (Hok _ _ Hk) as (_ & v & -> & _). eauto.
  - intros k r Hk. apply Hok. by apply elem_of_range_order.
Qed.

(** The four ways in which [validate] finds fault with [p]: a rule for
    channel id 0, a rule its own validation rejects, a sweep fee rate limit
    below the fee floor, a confirmation target below the minimum. *)
Lemma validate_accepts_faultless h p minConfs :
  validate h p minConfs = Ret None →
  ¬ (is_Some (rules_view h p !! 0)
     ∨ (∃ k v, rules_view h p !! k = Some (Some v) ∧ is_Some (rule_validate v))
     ∨ SweepFeeRateLimit p < AbsoluteFeePerKwFloor
     ∨ SweepConfTarget p < minConfs).
Proof.
  intros (_ & Hrules & Hfee & Hconf)%validate_accepts
         [[v Hzero]|[(k & v & Hk & [e He])|[?|?]]]; [| |lia|lia].
  - rewrite rules_view_lookup in Hzero.
    destruct (map_of h (ChannelRules p) !! 0) as [r|] eqn:Hr; [|done].
    by destruct (Hrules 0 r Hr).
  - rewrite rules_view_lookup in Hk.
    destruct (map_of h (ChannelRules p) !! k) as [r|] eqn:Hr; [|done].
    destruct (Hrules k r Hr) as (_ & v' & Hv' & Hnone).
    simpl in Hk. congruence.
Qed.

Lemma validate_returns h p minConfs :
  rules_present h p → validate h p minConfs ≠ Panic.
Proof.
  intros Hpresent. unfold validate.
  destruct (validate_rules h _) as [[?|]|] eqn:Hrules;
    [done|repeat case_match; done|].
  exfalso. revert Hrules. apply validate_rules_returns.
  intros k r. by apply rules_present_entries.
Qed.

(** C4: parameters that have a rule for channel id 0, or a rule its own
    validation rejects, or a sweep fee rate limit below the fee floor, or a
    confirmation target below the configured minimum are never committed,
    and [SetParameters] returns an error for them when their rule map
    holds rules, that is no nil pointer, which would make the call panic;
    and whenever [SetParameters] returns an error, the manager and
    everything it stores are exactly as before the call. *)
Theorem C4_SetParameters_rejects_and_changes_nothing st p :
  (is_Some (rules_view (heap st) p !! 0)
   ∨ (∃ k v, rules_view (heap st) p !! k = Some (Some v) ∧ is_Some (rule_validate v))
   ∨ SweepFeeRateLimit p < AbsoluteFeePerKwFloor
   ∨ SweepConfTarget p < MinimumConfirmations (cfg (manager st)) →
   (∀ st', SetParameters st p ≠ Ret (st', None))
   ∧ (rules_present (heap st) p → ∃ err, SetParameters st p = Ret (st, Some err)))
  ∧ (∀ st' err, SetParameters st p = Ret (st', Some err) → st' = st).
Proof.
  split.
  - intros Hfault. unfold SetParameters.
    destruct (validate (heap st) p _) as [[err|]|] eqn:Hvalidate.
    + split; [done|eauto].
    + by apply validate_accepts_faultless in Hvalidate.
    + split; [done|]. intros Hpresent. by apply validate_returns in Hvalidate.
  - intros st' err. unfold SetParameters.
    repeat case_match; intros ?; by simplify_eq.
Qed.

(** *** cloneParameters *)

Lemma clone_rules_spec src entries h copy :
  NoDup entries.*1 →
  (∀ k r, (k, r) ∈ entries → is_Some (deref_rule src r)) →
  is_Some (map_cells h !! copy) →
  ∃ h' mfinal,
    clone_rules src entries h copy = Ret h'
    ∧ rule_cells h ⊆ rule_cells h'
    ∧ map_cells h' = <[copy := mfinal]> (map_cells h)
    ∧ (∀ k, k ∉ entries.*1 → mfinal !! k = default ∅ (map_cells h !! copy) !! k)
    ∧ (∀ k r, (k, r) ∈ entries →
         ∃ l v, mfinal !! k = Some (Some l)
                ∧ (l ∉ dom (rule_cells h))
                ∧ rule_cells h' !! l = Some v
                ∧ deref_rule src r = Some v).
Proof.
  revert h. induction entries as [|[k0 r0] rest IH]; intros h Hnodup Hall [m0 Hm0].
  - exists h, m0. simpl. split_and!; [done|done| | |].
    + by rewrite insert_id.
    + intros k _. by rewrite Hm0.
    + intros k r Hin. by apply elem_of_nil in Hin.
  - simpl in Hnodup. apply NoDup_cons in Hnodup as [Hk0 Hnodup].
    destruct (Hall k0 r0 (list_elem_of_here _ _)) as [v0 Hv0].
    simpl. rewrite Hv0.
    set (l0 := fresh (dom (rule_cells h))).
    assert (rule_cells h !! l0 = None) as Hl0
      by (apply not_elem_of_dom, is_fresh).
    set (h2 := map_store (alloc_rule h v0).1 copy k0 (Some l0)).
    assert (rule_cells h2 = <[l0 := v0]> (rule_cells h)) as Hrules2 by done.
    assert (map_cells h2 = <[copy := <[k0 := Some l0]> m0]> (map_cells h)) as Hmaps2
      by (unfold h2, map_store; simpl; by rewrite Hm0).
    destruct (IH h2) as (h' & mf & Hclone & Hsub & Hmaps & Hkeep & Hnew).
    { done. }
    { intros k r Hin. apply (Hall k r). by right. }
    { rewrite Hmaps2, lookup_insert_eq. eauto. }
    exists h', mf. split_and!.
    + done.
    + etrans; [|exact Hsub]. rewrite Hrules2. by apply insert_subseteq.
    + by rewrite Hmaps, Hmaps2, insert_insert_eq.
    + intros k Hk. apply not_elem_of_cons in Hk as [Hne Hk].
      rewrite (Hkeep k Hk), Hmaps2, lookup_insert_eq, Hm0. simpl.
      by rewrite lookup_insert_ne.
    + intros k r [[= -> ->]|Hin]%elem_of_cons.
      * exists l0, v0. split_and!; [|by apply not_elem_of_dom| |done].
        -- rewrite (Hkeep k0 Hk0), Hmaps2, lookup_insert_eq. simpl.
           by rewrite lookup_insert_eq.
        -- eapply lookup_weaken; [|exact Hsub]. by rewrite Hrules2, lookup_insert_eq.
      * destruct (Hnew k r Hin) as (l & v & Hl & Hfresh & Hcell & Hv).
        exists l, v. split_and!; [done| |done|done].
        intros Hdom. apply Hfresh. rewrite Hrules2, dom_insert. set_solver.
Qed.

(** A clone lives in cells that did not exist before, leaves every
    existing cell as it was, and has the value of the original. *)
Lemma cloneParameters_spec h p :
  rules_present h p →
  ∃ h' q copy mcopy,
    cloneParameters h p = Ret (h', q)
    ∧ ChannelRules q = Some copy
    ∧ (copy ∉ dom (map_cells h))
    ∧ map_cells h' = <[copy := mcopy]> (map_cells h)
    ∧ rule_cells h ⊆ rule_cells h'
    ∧ (∀ k l, mcopy !! k = Some (Some l) →
         (l ∉ dom (rule_cells h)) ∧ l ∈ dom (rule_cells h'))
    ∧ value_equal h' q h p.
Proof.
  intros Hpresent. unfold cloneParameters, alloc_map.
  set (copy := fresh (dom (map_cells h))).
  assert (map_cells h !! copy = None) as Hcopy by (apply not_elem_of_dom, is_fresh).
  set (h0 := {| rule_cells := rule_cells h; map_cells := <[copy := ∅]> (map_cells h) |}).
  set (m := map_of h (ChannelRules p)).
  destruct (clone_rules_spec h (range_order m) h0 copy)
    as (h' & mcopy & Hclone & Hsub & Hmaps & Hkeep & Hnew).
  { apply NoDup_range_order. }
  { intros k r. by apply rules_present_entries. }
  { simpl. rewrite lookup_insert_eq. eauto. }
  rewrite Hclone. simpl in Hmaps. rewrite insert_insert_eq in Hmaps.
  eexists h', _, copy, mcopy. split_and!; try done.
  - by apply not_elem_of_dom.
  - intros k l Hk.
    destruct (m !! k) as [r|] eqn:Hm.
    + apply elem_of_range_order in Hm.
      destruct (Hnew k r Hm) as (l' & v & Hl' & Hfresh & Hcell & _).
      rewrite Hk in Hl'. simplify_eq. split; [done|]. apply elem_of_dom. eauto.
    + rewrite Hkeep in Hk.
      * simpl in Hk. by rewrite lookup_insert_eq in Hk.
      * intros ((k' & r) & -> & Hin%elem_of_range_order)%list_elem_of_fmap.
        simpl in Hm. congruence.
  - split_and!; try done. apply map_eq. intros k.
    rewrite !rules_view_lookup. simpl.
    rewrite Hmaps, lookup_insert_eq. simpl. fold m.
    destruct (m !! k) as [r|] eqn:Hm.
    + apply elem_of_range_order in Hm.
      destruct (Hnew k r Hm) as (l & v & -> & _ & Hcell & Hv).
      simpl. by rewrite Hcell, Hv.
    + rewrite Hkeep.
      * simpl. by rewrite lookup_insert_eq.
      * intros ((k' & r) & -> & Hin%elem_of_range_order)%list_elem_of_fmap.
        simpl in Hm. congruence.
Qed.



(** *** Mutating a returned copy *)

Lemma apart_deref old pm q h k r :
  apart old pm q h →
  map_of h (ChannelRules pm) !! k = Some r →
  deref_rule h r = a ← r; old !! a.
Proof.
  intros (Hsub & Hin & _) Hk. destruct r as [l|]; [|done]. simpl.
  apply Hin in Hk. apply elem_of_dom in Hk as [v Hv].
  rewrite Hv. by eapply lookup_weaken.
Qed.

Lemma mutate_apart old pm q h h' :
  apart old pm q h → mutate q h h' →
  apart old pm q h' ∧ rules_view h' pm = rules_view h pm.
Proof.
  intros Hapart Hstep.
  assert (map_of h' (ChannelRules pm) = map_of h (ChannelRules pm)
          → apart old pm q h' → rules_view h' pm = rules_view h pm) as Hview.
  { intros Hmap Hapart'. apply map_eq. intros k. rewrite !rules_view_lookup, Hmap.
    destruct (map_of h (ChannelRules pm) !! k) as [r|] eqn:Hk; [|done]. simpl.
    rewrite (apart_deref _ _ _ _ _ _ Hapart Hk).
    rewrite <- Hmap in Hk. by rewrite (apart_deref _ _ _ _ _ _ Hapart' Hk). }
  destruct Hapart as (Hsub & Hin & Hout & Hne & [am Ham]).
  assert (∀ a m, ChannelRules q = Some a →
            map_of {| rule_cells := rule_cells h';
                      map_cells := <[a := m]> (map_cells h) |} (ChannelRules pm)
            = map_of h (ChannelRules pm)) as Hother.
  { intros a m Hq. rewrite Ham. simpl. rewrite lookup_insert_ne; [done|]. congruence. }
  assert (∀ a m, ChannelRules q = Some a →
            map_of {| rule_cells := rule_cells h';
                      map_cells := <[a := m]> (map_cells h) |} (ChannelRules q)
            = m) as Hself.
  { intros a m Hq. rewrite Hq. simpl. by rewrite lookup_insert_eq. }
  inversion Hstep as [h0 a k v Hq Halloc | h0 a k Hq Halloc | h0 a k k' l Hq Hk
                      | h0 a k Hq Halloc | h0 k l v Hk Hcell]; subst h0; subst h'.
  - set (l := fresh (dom (rule_cells h))).
    assert (l ∉ dom (rule_cells h)) as Hfresh by apply is_fresh.
    assert (l ∉ dom old) as Hfresh_old.
    { intros Hl. apply Hfresh. apply subseteq_dom in Hsub. set_solver. }
    cut (apart old pm q (map_store (alloc_rule h v).1 a k (Some l))).
    { intros Hapart'. split; [done|]. apply Hview; [|done]. by apply (Hother a). }
    split_and!; [| | |done|eauto].
    + simpl. apply insert_subseteq_r; [|done]. by apply not_elem_of_dom.
    + unfold map_store. rewrite (Hother a _ Hq). apply Hin.
    + unfold map_store. rewrite (Hself a _ Hq). intros k' l'.
      destruct (decide (k = k')) as [->|Hkk].
      * rewrite lookup_insert_eq. intros ?. by simplify_eq.
      * rewrite lookup_insert_ne by done. simpl. intros Hk'.
        apply (Hout k'). by rewrite Hq.
  - cut (apart old pm q (map_store h a k None)).
    { intros Hapart'. split; [done|]. apply Hview; [|done]. by apply (Hother a). }
    split_and!; [done| | |done|eauto].
    + unfold map_store. rewrite (Hother a _ Hq). apply Hin.
    + unfold map_store. rewrite (Hself a _ Hq). intros k' l'.
      destruct (decide (k = k')) as [->|Hkk].
      * by rewrite lookup_insert_eq.
      * rewrite lookup_insert_ne by done. intros Hk'.
        apply (Hout k'). by rewrite Hq.
  - cut (apart old pm q (map_store h a k (Some l))).
    { intros Hapart'. split; [done|]. apply Hview; [|done]. by apply (Hother a). }
    split_and!; [done| | |done|eauto].
    + unfold map_store. rewrite (Hother a _ Hq). apply Hin.
    + unfold map_store. rewrite (Hself a _ Hq). intros k0 l'.
      destruct (decide (k = k0)) as [->|Hkk].
      * rewrite lookup_insert_eq. intros ?. simplify_eq.
        apply (Hout k'). by rewrite Hq.
      * rewrite lookup_insert_ne by done. intros Hk0.
        apply (Hout k0). by rewrite Hq.
  - match goal with |- apart _ _ _ ?hnew ∧ _ => cut (apart old pm q hnew) end.
    { intros Hapart'. split; [done|]. apply Hview; [|done]. by apply (Hother a). }
    split_and!; [done| | |done|eauto].
    + rewrite (Hother a _ Hq). apply Hin.
    + rewrite (Hself a _ Hq). intros k' l' Hk'%lookup_delete_Some.
      apply (Hout k'). rewrite Hq. by destruct Hk'.
  - assert (l ∉ dom old) as Hl by (by apply (Hout k)).
    match goal with |- apart _ _ _ ?hnew ∧ _ => cut (apart old pm q hnew) end.
    { intros Hapart'. split; [done|]. by apply Hview. }
    split_and!; [|done|done|done|eauto].
    simpl. apply insert_subseteq_r; [|done]. by apply not_elem_of_dom.
Qed.

Lemma mutate_rtc_apart old pm q h h' :
  apart old pm q h → rtc (mutate q) h h' →
  apart old pm q h' ∧ rules_view h' pm = rules_view h pm.
Proof.
  intros Hapart Hsteps. induction Hsteps as [h|h h1 h2 Hstep Hsteps IH]; [done|].
  destruct (mutate_apart _ _ _ _ _ Hapart Hstep) as [Hapart1 Hview1].
  destruct (IH Hapart1) as [Hapart2 Hview2]. split; [done|]. congruence.
Qed.


End ParameterStore.

Import Examples.

Lemma C4_SetParameters_rejects_and_changes_nothing_witness :
  ∃ err, SetParameters (state_at 500 0 [] []) zeroKeyParams
         = Ret (state_at 500 0 [] [], Some err).
Proof.
  refine (proj2 (proj1 (C4_SetParameters_rejects_and_changes_nothing
                          (state_at 500 0 [] []) zeroKeyParams) _) _).
  - left. vm_compute. eauto.
  - apply (bool_decide_unpack _). vm_compute. exact I.
Defined.

Lemma C5_fee_estimate_over_limit_suggests_nothing_witness :
  SuggestSwaps (state_at 800 0 [] []) = Ret (Ok []).
Proof.
  apply (C5_fee_estimate_over_limit_suggests_nothing (state_at 800 0 [] []) 800).
  - reflexivity.
  - simpl. lia.
Defined.

Lemma C6_unrestricted_pending_swap_suggests_nothing_witness :
  SuggestSwaps (state_at 500 0 [pendingUnrestrictedOut] []) = Ret (Ok []).
Proof.
  apply (C6_unrestricted_pending_swap_suggests_nothing
           (state_at 500 0 [pendingUnrestrictedOut] []) 500
           {| Minimum := 250000; Maximum := 1000000 |} [pendingUnrestrictedOut] []);
    try reflexivity.
  left. exists pendingUnrestrictedOut. split; [apply list_elem_of_here|].
  split; reflexivity.
Defined.

Lemma C7_failed_channels_backed_off_for_FailureBackOff_witness :
  (∀ eligible,
     getEligibleChannels (manager (state_at 500 (1000 + day - 1) [failedOutA] []))
       [failedOutA] [] = Ok eligible → chanA ∉ eligible)
  ∧ (∃ eligible,
       getEligibleChannels (manager (state_at 500 (1000 + day) [failedOutA] []))
         [failedOutA] [] = Ok eligible ∧ chanA ∈ eligible).
Proof.
  split.
  - refine (proj1 (C7_failed_channels_backed_off_for_FailureBackOff
                     (manager (state_at 500 (1000 + day - 1) [failedOutA] []))
                     [failedOutA] [] failedOutA chanA _ _ _ _) _).
    + apply list_elem_of_here.
    + reflexivity.
    + apply list_elem_of_here.
    + vm_compute. split; [reflexivity|discriminate].
    + vm_compute. reflexivity.
  - refine (proj2 (C7_failed_channels_backed_off_for_FailureBackOff
                     (manager (state_at 500 (1000 + day) [failedOutA] []))
                     [failedOutA] [] failedOutA chanA _ _ _ _)
              _ _ _ _ _ _ [chanA; chanB] _ _).
    + apply list_elem_of_here.
    + reflexivity.
    + apply list_elem_of_here.
    + vm_compute. split; [reflexivity|discriminate].
    + vm_compute. discriminate.
    + intros o ->%list_elem_of_singleton [Hpending _]. discriminate.
    + intros i Hi. by apply elem_of_nil in Hi.
    + intros o ->%list_elem_of_singleton [Hpending _]. discriminate.
    + intros i Hi. by apply elem_of_nil in Hi.
    + intros o ->%list_elem_of_singleton Hne. done.
    + reflexivity.
    + apply list_elem_of_here.
Defined.


End LiquidityProofs.

(** ** Further properties of the hop-hint selection *)

Module HopHintsMore.
Import HopHints GoFacts HopHintsProofs.

Section Selection.
Context `{Btcec}.

Implicit Types (lnd : LndClient) (s : locals) (channels : list ChannelInfo).

Lemma excluded_false include_nodes c :
  excluded include_nodes c = false ↔
  ∀ nodes, include_nodes = Some nodes → PubKeyBytes c ∈ nodes.
Proof.
  unfold excluded. destruct include_nodes as [nodes|].
  - rewrite negb_false_iff, bool_decide_eq_true. split.
    + intros Hin nodes' ?. by simplify_eq.
    + intros Hall. by apply Hall.
  - split; [intros _ nodes ?; done | done].
Qed.

(** One pass of the first loop adds nothing, or the single hint of its
    channel, and then the channel qualifies. *)
Lemma pass1_body_adds lnd amtMSat include_nodes channels c s s' :
  pass1_body lnd amtMSat include_nodes channels c s = Continue s' →
  hopHints s' = hopHints s
  ∨ ∃ g, hopHints s' = hopHints s ++ [g]
         ∧ hint_for c g ∧ qualifies amtMSat include_nodes channels c.
Proof.
  unfold pass1_body, chanCanBeHopHint.
  destruct (RemoteBalance c <? amtMSat) eqn:Hbal; [intros ?; simplify_eq; auto|].
  destruct (excluded include_nodes c) eqn:Hexcl; [intros ?; simplify_eq; auto|].
  apply Z.ltb_ge in Hbal. pose proof (proj1 (excluded_false _ _) Hexcl) as Hincl.
  destruct (IsPublicNode channels (PubKeyBytes c)) eqn:Hpub; simpl;
    repeat case_match; intros ?; simplify_eq; simpl; auto.
  all: right; eexists; split; [done|]; split; [by eexists|done].
Qed.

Lemma pass1_adds lnd amtMSat include_nodes channels l s s' :
  pass1 lnd amtMSat include_nodes channels l s = Continue s' →
  ∃ cs gs,
    hopHints s' = hopHints s ++ gs
    ∧ Forall2 hint_for cs gs
    ∧ cs `sublist_of` l
    ∧ Forall (qualifies amtMSat include_nodes channels) cs.
Proof.
  revert s. induction l as [|c rest IH]; intros s; simpl.
  - intros ?; simplify_eq. exists [], []. by rewrite app_nil_r.
  - destruct (pass1_body lnd amtMSat include_nodes channels c s) as [s1| | |] eqn:Hb;
      try done.
    intros (cs & gs & Hgs & Hfor & Hsub & Hq)%IH.
    apply pass1_body_adds in Hb as [Hsame|(g & Hadd & Hg & Hqc)].
    + exists cs, gs. rewrite Hgs, Hsame. split_and!; try done. by apply sublist_cons.
    + exists (c :: cs), (g :: gs). rewrite Hgs, Hadd, <- app_assoc.
      split_and!; try done; [by constructor|by apply sublist_skip|by constructor].
Qed.

(** IsPublicNode says no exactly when the list holds a private channel
    with the given peer; a peer with no listed channel counts as public. *)
Theorem IsPublicNode_false_iff_private_channel channels pubKey :
  IsPublicNode channels pubKey = false ↔
  ∃ c, c ∈ channels ∧ PubKeyBytes c = pubKey ∧ Private c = true.
Proof.
  induction channels as [|c rest IH]; simpl.
  - split; [done|]. intros (c & Hc & _). by apply elem_of_nil in Hc.
  - destruct (bool_decide (PubKeyBytes c = pubKey)) eqn:Hk;
      destruct (Private c) eqn:Hp; simpl.
    + apply bool_decide_eq_true in Hk. split; [|done].
      intros _. exists c. split; [by left|done].
    + rewrite IH. split.
      * intros (c' & ? & ?). exists c'. split; [by right|done].
      * intros (c' & [->|?]%elem_of_cons & ? & ?); [congruence|eauto].
    + apply bool_decide_eq_false in Hk. rewrite IH. split.
      * intros (c' & ? & ?). exists c'. split; [by right|done].
      * intros (c' & [->|?]%elem_of_cons & ? & ?); [congruence|eauto].
    + rewrite IH. split.
      * intros (c' & ? & ?). exists c'. split; [by right|done].
      * intros (c' & [->|?]%elem_of_cons & ? & ?); [congruence|eauto].
Qed.

(** chanCanBeHopHint says no only for a peer with a private channel, and
    then without asking lnd; when it says yes it has asked lnd once and
    returns the policy of the side of the edge on which the counterparty
    is. A failed edge lookup is never reported as a no: the nil edge is
    dereferenced and the call panics. The [chanInfo] argument plays no
    part. *)
Theorem chanCanBeHopHint_outcomes lnd n channels c chanInfo :
  (∀ policy ok n',
     chanCanBeHopHint lnd n channels c chanInfo = Ret (policy, ok, n') →
     (ok = false ∧ policy = None ∧ n' = n
      ∧ IsPublicNode channels (PubKeyBytes c) = false)
     ∨ (ok = true ∧ n' = S n
        ∧ IsPublicNode channels (PubKeyBytes c) = true
        ∧ ∃ edge, GetChanInfo lnd n (ChannelID c) = Ok edge
                  ∧ policy = if bool_decide (PubKeyBytes c = Node1 edge)
                             then Node1Policy edge else Node2Policy edge))
  ∧ (chanCanBeHopHint lnd n channels c chanInfo = Panic ↔
     IsPublicNode channels (PubKeyBytes c) = true
     ∧ ∃ e, GetChanInfo lnd n (ChannelID c) = Fail e).
Proof.
  unfold chanCanBeHopHint, FetchChannelEdgesByID.
  destruct (IsPublicNode channels (PubKeyBytes c)); simpl.
  - destruct (GetChanInfo lnd n (ChannelID c)) as [edge|e].
    + split.
      * intros policy ok n' ?; simplify_eq. right. split_and!; try done.
        by exists edge.
      * split; [done|]. by intros [_ [e ?]].
    + split; [done|]. split; [eauto|done].
  - split.
    + intros policy ok n' ?; simplify_eq. by left.
    + split; [done|]. by intros [? _].
Qed.

(** Every group SelectHopHints returns holds one hint, for a listed
    channel that alone carries the amount and whose peer is among the
    included nodes when the caller names any. *)
Theorem SelectHopHints_hints_qualify
    lnd amtMSat numMaxHophints include_nodes hs group :
  SelectHopHints lnd amtMSat numMaxHophints include_nodes = Ret (Ok hs) →
  group ∈ hs →
  ∃ channels c,
    ListChannels lnd = Ok channels
    ∧ c ∈ channels
    ∧ hint_for c group
    ∧ qualifies amtMSat include_nodes channels c.
Proof.
  intros (channels & s & Hlist & Hp1 & ->)%SelectHopHints_returns_pass1 Hg.
  apply pass1_adds in Hp1 as (cs & gs & Hgs & Hfor & Hsub & Hq).
  simpl in Hgs. rewrite Hgs in Hg.
  apply list_elem_of_lookup in Hg as [i Hi].
  destruct (Forall2_lookup_r _ _ _ _ _ Hfor Hi) as (c & Hc & Hhint).
  exists channels, c. split_and!; [done| |done|].
  - eapply elem_of_sublist; [|exact Hsub]. by eapply list_elem_of_lookup_2.
  - rewrite Forall_forall in Hq. apply Hq. by eapply list_elem_of_lookup_2.
Qed.

(** The returned groups follow the order of the channel list, one group
    for a channel at most: there are never more groups than listed
    channels. *)
Theorem SelectHopHints_hints_follow_channel_list
    lnd amtMSat numMaxHophints include_nodes hs :
  SelectHopHints lnd amtMSat numMaxHophints include_nodes = Ret (Ok hs) →
  ∃ channels cs,
    ListChannels lnd = Ok channels
    ∧ cs `sublist_of` channels
    ∧ Forall2 hint_for cs hs
    ∧ (length hs <= length channels)%nat.
Proof.
  intros (channels & s & Hlist & Hp1 & ->)%SelectHopHints_returns_pass1.
  apply pass1_adds in Hp1 as (cs & gs & Hgs & Hfor & Hsub & Hq).
  simpl in Hgs. rewrite Hgs.
  exists channels, cs. split_and!; try done.
  rewrite <- (Forall2_length _ _ _ Hfor). by apply sublist_length.
Qed.

(** When no listed channel alone carries the amount, the call does not
    top up from smaller channels: with at least one channel listed, room
    for a hint, and an amount whose double is an int64, it panics. *)
Theorem SelectHopHints_panics_when_no_channel_carries_amount
    lnd amtMSat numMaxHophints include_nodes channels :
  ListChannels lnd = Ok channels →
  channels ≠ [] →
  0 < numMaxHophints →
  0 <= amtMSat → 2 * amtMSat <= max_int64 →
  (∀ c, c ∈ channels → RemoteBalance c < amtMSat) →
  SelectHopHints lnd amtMSat numMaxHophints include_nodes = Panic.
Proof.
  intros Hlist Hne Hmax Hamt Hdouble Hsmall.
  assert (∀ l s, (∀ c, c ∈ l → c ∈ channels) →
            pass1 lnd amtMSat include_nodes channels l s = Continue s) as Hp1.
  { induction l as [|c rest IH]; intros s Hsub; [done|]. simpl.
    unfold pass1_body.
    assert ((RemoteBalance c <? amtMSat) = true) as ->.
    { apply Z.ltb_lt, Hsmall, Hsub. by left. }
    apply IH. intros c' ?. apply Hsub. by right. }
  unfold SelectHopHints. rewrite Hlist.
  assert ((numMaxHophints <? 0) = false) as -> by (apply Z.ltb_ge; lia).
  rewrite Hp1 by done.
  change (Z.of_nat (length (hopHints init_locals))) with 0.
  assert ((numMaxHophints <=? 0) = false) as Hroom by (apply Z.leb_gt; lia).
  rewrite Hroom, pass2_nil_chanInfo. destruct channels as [|c rest]; [done|].
  change (Z.of_nat (length (hopHints init_locals))) with 0.
  change (totalHintBandwidth init_locals) with 0.
  rewrite Hroom, hopHintFactor_product
    by (unfold min_int64, max_int64 in *; lia).
  by assert ((2 * amtMSat <? 0) = false) as -> by (apply Z.ltb_ge; lia).
Qed.

(** SelectHopHints makes no error of its own: the error it returns is the
    one of the channel listing, of an edge lookup for a listed channel, or
    of parsing the key of a listed channel. *)
Theorem SelectHopHints_error_is_a_backend_error
    lnd amtMSat numMaxHophints include_nodes e :
  SelectHopHints lnd amtMSat numMaxHophints include_nodes = Ret (Fail e) →
  ListChannels lnd = Fail e
  ∨ ∃ channels c,
      ListChannels lnd = Ok channels ∧ c ∈ channels
      ∧ ((∃ n, GetChanInfo lnd n (ChannelID c) = Fail e)
         ∨ ParsePubKey (PubKeyBytes c) = Fail e).
Proof.
  unfold SelectHopHints.
  destruct (ListChannels lnd) as [channels|e'] eqn:Hlist;
    [|intros ?; simplify_eq; by left].
  destruct (numMaxHophints <? 0); [done|].
  assert (∀ l s, (∀ c, c ∈ l → c ∈ channels) →
            pass1 lnd amtMSat include_nodes channels l s = Return (Fail e) →
            ∃ c, c ∈ channels
                 ∧ ((∃ n, GetChanInfo lnd n (ChannelID c) = Fail e)
                    ∨ ParsePubKey (PubKeyBytes c) = Fail e)) as Hp1.
  { induction l as [|c rest IH]; intros s Hsub; [done|]. simpl.
    destruct (pass1_body lnd amtMSat include_nodes channels c s) as [s1| |r|] eqn:Hb;
      try done.
    - apply IH. intros c' ?. apply Hsub. by right.
    - intros ?; simplify_eq. exists c. split; [apply Hsub; by left|].
      revert Hb. unfold pass1_body.
      repeat case_match; intros ?; simplify_eq; eauto. }
  destruct (pass1 lnd amtMSat include_nodes channels channels init_locals)
    as [s|s|r|] eqn:Hpass1; try done.
  - destruct (numMaxHophints <=? Z.of_nat (length (hopHints s))); [done|].
    rewrite pass2_nil_chanInfo. by repeat case_match.
  - by apply pass1_no_break in Hpass1.
  - intros ?; simplify_eq. right. apply Hp1 in Hpass1 as (c & ? & ?); [|done].
    by exists channels, c.
Qed.

End Selection.

Import Examples.

Lemma SelectHopHints_hints_qualify_witness :
  ∃ channels c,
    ListChannels (lnd_of [chanBad; chanA; chanB]) = Ok channels
    ∧ c ∈ channels
    ∧ hint_for c [hintB]
    ∧ qualifies 100000 (Some {[peerB]}) channels c.
Proof.
  apply (SelectHopHints_hints_qualify
           (lnd_of [chanBad; chanA; chanB]) 100000 1 (Some {[peerB]}) [[hintB]] [hintB]).
  - vm_compute. reflexivity.
  - apply list_elem_of_here.
Defined.

Lemma SelectHopHints_hints_follow_channel_list_witness :
  ∃ channels cs,
    ListChannels (lnd_of [chanBad; chanA; chanB]) = Ok channels
    ∧ cs `sublist_of` channels
    ∧ Forall2 hint_for cs [[hintA]; [hintB]]
    ∧ (length [[hintA]; [hintB]] <= length channels)%nat.
Proof.
  apply (SelectHopHints_hints_follow_channel_list
           (lnd_of [chanBad; chanA; chanB]) 100000 2 None [[hintA]; [hintB]]).
  vm_compute. reflexivity.
Defined.

Lemma SelectHopHints_panics_when_no_channel_carries_amount_witness :
  SelectHopHints (lnd_of [chanBad]) 100000 1 None = Panic.
Proof.
  apply (SelectHopHints_panics_when_no_channel_carries_amount
           (lnd_of [chanBad]) 100000 1 None [chanBad]).
  - reflexivity.
  - discriminate.
  - lia.
  - lia.
  - unfold max_int64. lia.
  - intros c ->%list_elem_of_singleton. simpl. lia.
Defined.

Lemma SelectHopHints_error_is_a_backend_error_witness :
  ListChannels (lnd_of [chanLost]) = Fail (ErrExternal "edge not found")
  ∨ ∃ channels c,
      ListChannels (lnd_of [chanLost]) = Ok channels ∧ c ∈ channels
      ∧ ((∃ n, GetChanInfo (lnd_of [chanLost]) n (ChannelID c)
               = Fail (ErrExternal "edge not found"))
         ∨ ParsePubKey (PubKeyBytes c) = Fail (ErrExternal "edge not found")).
Proof.
  apply (SelectHopHints_error_is_a_backend_error (lnd_of [chanLost]) 100000 1 None).
  vm_compute. reflexivity.
Defined.

Lemma chanCanBeHopHint_outcomes_witness :
  chanCanBeHopHint (lnd_of [chanLost]) 0 [chanLost] chanLost None = Panic.
Proof.
  apply (proj2 (chanCanBeHopHint_outcomes (lnd_of [chanLost]) 0 [chanLost] chanLost None)).
  split; [reflexivity|]. eexists. reflexivity.
Defined.

End HopHintsMore.

(** ** Further properties of the liquidity manager *)

Module LiquidityMore.
Import Liquidity GoFacts LiquidityProofs.

Section Eligibility.
Context `{Loopdb} `{Rules} `{MapRange}.

Implicit Types (m : Manager) (loopOut : list LoopOut) (loopIn : list LoopIn).
Implicit Types (channels : list ChannelInfo).

Lemma filter_channels_filter (existingOut : gmap Z bool) (existingIn : gmap Vertex bool)
    (failedOut : gmap Z Time) channels eligible :
  filter_channels existingOut existingIn failedOut channels eligible
  = eligible
    ++ filter (λ c, failedOut !! ChannelID c = None
                    ∧ default false (existingOut !! ChannelID c) = false
                    ∧ default false (existingIn !! PubKeyBytes c) = false) channels.
Proof.
  revert eligible. induction channels as [|c rest IH]; intros eligible; simpl.
  - by rewrite app_nil_r.
  - unfold NewShortChanIDFromInt. case_bool_decide as Hfail.
    { rewrite IH, filter_cons_False; [done|].
      intros (Hnone & _). destruct Hfail as [? Hfail]. congruence. }
    apply eq_None_not_Some in Hfail.
    destruct (default false (existingOut !! ChannelID c)) eqn:Hout.
    { rewrite IH, filter_cons_False; [done|]. intros (_ & ? & _). congruence. }
    destruct (default false (existingIn !! PubKeyBytes c)) eqn:Hin.
    { rewrite IH, filter_cons_False; [done|]. intros (_ & _ & ?). congruence. }
    rewrite IH, filter_cons_True by done. by rewrite <- app_assoc.
Qed.

(** getEligibleChannels as one expression. *)
Lemma getEligibleChannels_cases m loopOut loopIn :
  getEligibleChannels m loopOut loopIn =
    if decide (Exists unrestricted_out loopOut ∨ Exists unrestricted_in loopIn)
    then Ok []
    else
      match ListChannels (cfg m) with
      | Fail e => Fail e
      | Ok channels => Ok (filter (free_channel (failureCutoff m) loopOut loopIn) channels)
      end.
Proof.
  case_decide as Hun.
  - apply getEligibleChannels_unrestricted. by rewrite <- !Exists_exists.
  - unfold getEligibleChannels. fold (failureCutoff m).
    destruct (scan_loop_out_restricted (failureCutoff m) loopOut ∅ ∅)
      as [[existingOut failedOut] Hout].
    { intros o Ho Huo. apply Hun. left. apply Exists_exists. eauto. }
    destruct (scan_loop_in_restricted loopIn ∅) as [existingIn Hin].
    { intros i Hi Hui. apply Hun. right. apply Exists_exists. eauto. }
    rewrite Hout, Hin.
    destruct (ListChannels (cfg m)) as [channels|]; [|done].
    rewrite filter_channels_filter. simpl. f_equal.
    apply scan_loop_out_some in Hout as [Hfailed Hexisting].
    pose proof (scan_loop_in_some _ _ _ Hin) as Hpeers.
    apply list_filter_iff. intros c. unfold free_channel.
    rewrite !Exists_exists, eq_None_not_Some, Hfailed.
    rewrite <- !not_true_iff_false, Hexisting, Hpeers, !lookup_empty. simpl.
    split.
    + intros (Hf & Ho & Hi). split_and!; intros ?; [apply Hf|apply Ho|apply Hi]; auto.
    + intros (Hf & Ho & Hi). split_and!.
      * intros [[? ?]|?]; [done|auto].
      * intros [?|?]; [done|auto].
      * intros [?|?]; [done|auto].
Qed.

(** The result of getEligibleChannels depends on the swap records only
    through the unrestricted swaps they hold and the channels and peers
    they fail or hold. *)
Lemma getEligibleChannels_ext m loopOut loopIn loopOut' loopIn' :
  (Exists unrestricted_out loopOut ↔ Exists unrestricted_out loopOut') →
  (Exists unrestricted_in loopIn ↔ Exists unrestricted_in loopIn') →
  (∀ k, Exists (fails_channel (failureCutoff m) k) loopOut
        ↔ Exists (fails_channel (failureCutoff m) k) loopOut') →
  (∀ k, Exists (holds_channel k) loopOut ↔ Exists (holds_channel k) loopOut') →
  (∀ v, Exists (holds_peer v) loopIn ↔ Exists (holds_peer v) loopIn') →
  getEligibleChannels m loopOut loopIn = getEligibleChannels m loopOut' loopIn'.
Proof.
  intros Huo Hui Hf Ho Hi. rewrite !getEligibleChannels_cases.
  repeat case_decide; try tauto.
  destruct (ListChannels (cfg m)) as [channels|]; [|done]. f_equal.
  apply list_filter_iff. intros c. unfold free_channel. by rewrite Hf, Ho, Hi.
Qed.

(** getEligibleChannels in full: while an unrestricted swap is pending it
    returns no channel and does not need the channel listing; otherwise it
    passes on the error of the listing, or returns the listed channels, in
    the order of the listing, without those that a failed or pending swap
    keeps. *)
Theorem getEligibleChannels_is_a_filter_of_the_listing m loopOut loopIn :
  (Exists unrestricted_out loopOut ∨ Exists unrestricted_in loopIn →
   getEligibleChannels m loopOut loopIn = Ok [])
  ∧ (¬ (Exists unrestricted_out loopOut ∨ Exists unrestricted_in loopIn) →
     (∀ e, ListChannels (cfg m) = Fail e →
           getEligibleChannels m loopOut loopIn = Fail e)
     ∧ (∀ channels, ListChannels (cfg m) = Ok channels →
          getEligibleChannels m loopOut loopIn
          = Ok (filter (free_channel (failureCutoff m) loopOut loopIn) channels))).
Proof.
  rewrite getEligibleChannels_cases. split.
  - intros Hun. by rewrite decide_True.
  - intros Hun. rewrite decide_False by done.
    split; [intros e ->|intros channels ->]; done.
Qed.

(** The order of the swap records does not matter to
    getEligibleChannels. *)
Theorem getEligibleChannels_ignores_record_order m loopOut loopIn loopOut' loopIn' :
  loopOut ≡ₚ loopOut' → loopIn ≡ₚ loopIn' →
  getEligibleChannels m loopOut loopIn = getEligibleChannels m loopOut' loopIn'.
Proof.
  intros Hout Hin. apply getEligibleChannels_ext; intros; by rewrite ?Hout, ?Hin.
Qed.

(** Records of swaps that are neither pending nor failed off chain play no
    part: dropping them from both listings leaves the result unchanged. *)
Theorem getEligibleChannels_ignores_completed_swaps m loopOut loopIn :
  getEligibleChannels m (filter live_out loopOut) (filter live_in loopIn)
  = getEligibleChannels m loopOut loopIn.
Proof.
  assert (∀ (A : Type) (P Q : A → Prop) `{!∀ x, Decision (Q x)} (l : list A),
            (∀ x, P x → Q x) → Exists P (filter Q l) ↔ Exists P l) as Hfilter.
  { intros A P Q ? l HPQ. rewrite !Exists_exists. split.
    - intros (x & [_ ?]%list_elem_of_filter & ?). eauto.
    - intros (x & ? & ?). exists x. split; [|done].
      apply list_elem_of_filter. auto. }
  apply getEligibleChannels_ext; intros; apply Hfilter.
  - intros o [? _]. by right.
  - intros i [? _]. done.
  - intros o (? & _). by left.
  - intros o [? _]. by right.
  - intros i [? _]. done.
Qed.

End Eligibility.

Section Suggestions.
Context `{Loopdb} `{Rules} `{MapRange}.

Implicit Types (st : State) (m : Manager) (h : Heap) (p q : Parameters).
Implicit Types (eligible channels : list ChannelInfo).

(** When the loop over the eligible channels returns, it has added the
    requests of the channels, in their order. *)
Lemma suggest_returns h m restrictions eligible suggestions out :
  suggest h m restrictions eligible suggestions = Ret out →
  out = suggestions ++ omap (request_for h m restrictions) eligible.
Proof.
  revert suggestions. induction eligible as [|c rest IH]; intros suggestions; simpl.
  - intros ?; simplify_eq. by rewrite app_nil_r.
  - unfold request_for at 1.
    destruct (map_of h (ChannelRules (params m)) !! NewShortChanIDFromInt (ChannelID c))
      as [rule|]; simpl; [|apply IH].
    destruct (deref_rule h rule) as [r|]; simpl; [|done].
    destruct (suggestSwap r (newBalances c) restrictions) as [suggestion|]; simpl;
      [|apply IH].
    intros ->%IH. by rewrite <- app_assoc.
Qed.

(** It returns when the stored rule map holds rules. *)
Lemma suggest_present h m restrictions eligible suggestions :
  rules_present h (params m) →
  suggest h m restrictions eligible suggestions ≠ Panic.
Proof.
  intros Hpresent. revert suggestions.
  induction eligible as [|c rest IH]; intros suggestions; simpl; [done|].
  destruct (map_of h (ChannelRules (params m)) !! NewShortChanIDFromInt (ChannelID c))
    as [rule|] eqn:Hrule; [|apply IH].
  destruct (Hpresent (ChannelID c) (deref_rule h rule)) as [r Hr].
  { unfold NewShortChanIDFromInt in Hrule. by rewrite rules_view_lookup, Hrule. }
  rewrite Hr. destruct (suggestSwap r (newBalances c) restrictions); apply IH.
Qed.

Lemma eligible_listed m loopOut loopIn eligible c :
  getEligibleChannels m loopOut loopIn = Ok eligible → c ∈ eligible →
  ∃ channels, ListChannels (cfg m) = Ok channels ∧ c ∈ channels.
Proof.
  rewrite getEligibleChannels_cases. case_decide.
  - intros ?; simplify_eq. by intros ?%elem_of_nil.
  - destruct (ListChannels (cfg m)) as [channels|]; [|done].
    intros ?; simplify_eq. intros [_ ?]%list_elem_of_filter. eauto.
Qed.

(** When the stored rule map holds rules, the fee estimate is within the
    limit and every backend answers, SuggestSwaps returns, without error,
    one request for every eligible channel whose rule recommends a swap, in
    the order of the eligible channels; a channel without a rule, or whose
    rule recommends nothing, gets none. *)
Theorem SuggestSwaps_one_request_per_recommendation
    st estimate restrictions loopOut loopIn eligible :
  rules_present (heap st) (params (manager st)) →
  EstimateFee (cfg (manager st)) (SweepConfTarget (params (manager st))) = Ok estimate →
  estimate <= SweepFeeRateLimit (params (manager st)) →
  LoopOutRestrictions (cfg (manager st)) = Ok restrictions →
  ListLoopOut (cfg (manager st)) = Ok loopOut →
  ListLoopIn (cfg (manager st)) = Ok loopIn →
  getEligibleChannels (manager st) loopOut loopIn = Ok eligible →
  SuggestSwaps st
  = Ret (Ok (omap (request_for (heap st) (manager st) restrictions) eligible)).
Proof.
  intros Hpresent Hfee Hlimit Hrestr Hout Hin Heligible. unfold SuggestSwaps.
  case_bool_decide as Hempty.
  - apply map_size_empty_inv in Hempty. do 2 f_equal. symmetry. clear Heligible.
    induction eligible as [|c rest IH]; [done|]. simpl.
    unfold request_for at 1. rewrite Hempty, lookup_empty. simpl. apply IH.
  - rewrite Hfee.
    assert ((SweepFeeRateLimit (params (manager st)) <? estimate) = false) as ->
      by (apply Z.ltb_ge; lia).
    rewrite Hrestr, Hout, Hin, Heligible.
    destruct (suggest (heap st) (manager st) restrictions eligible []) as [out|] eqn:Hs.
    + by apply suggest_returns in Hs as ->.
    + by apply suggest_present in Hs.
Qed.

(** Every request SuggestSwaps returns is made from the recommendation
    that the stored rule of a listed channel gives for the server's
    restrictions; it names that recommendation's amount and channel, the
    default ceilings for miner fee, prepay and prepay routing fee, and the
    stored confirmation target. *)
Theorem SuggestSwaps_requests_come_from_stored_rules st requests request :
  SuggestSwaps st = Ret (Ok requests) →
  request ∈ requests →
  ∃ channels channel rule restrictions suggestion,
    ListChannels (cfg (manager st)) = Ok channels
    ∧ channel ∈ channels
    ∧ rules_view (heap st) (params (manager st)) !! ChannelID channel = Some (Some rule)
    ∧ LoopOutRestrictions (cfg (manager st)) = Ok restrictions
    ∧ suggestSwap rule (newBalances channel) restrictions = Some suggestion
    ∧ request = makeLoopOutRequest (manager st) suggestion
    ∧ ReqAmount request = Amount suggestion
    ∧ OutgoingChanSet request = [Channel suggestion]
    ∧ MaxMinerFee request = 15000
    ∧ MaxPrepayAmount request = 30000
    ∧ MaxPrepayRoutingFee request = 150
    ∧ ReqSweepConfTarget request = SweepConfTarget (params (manager st)).
Proof.
  unfold SuggestSwaps. case_bool_decide; [intros ?; simplify_eq; by intros ?%elem_of_nil|].
  destruct (EstimateFee _ _) as [estimate|]; [|done].
  case_match; [intros ?; simplify_eq; by intros ?%elem_of_nil|].
  destruct (LoopOutRestrictions _) as [restrictions|] eqn:Hrestr; [|done].
  destruct (ListLoopOut _) as [loopOut|]; [|done].
  destruct (ListLoopIn _) as [loopIn|]; [|done].
  destruct (getEligibleChannels _ _ _) as [eligible|] eqn:Heligible; [|done].
  destruct (suggest _ _ _ _ _) as [out|] eqn:Hs; [|done].
  intros ?; simplify_eq. apply suggest_returns in Hs as ->. simpl.
  intros (channel & Hc & Hreq)%list_elem_of_omap.
  destruct (eligible_listed _ _ _ _ _ Heligible Hc) as (channels & Hlist & Hin).
  unfold request_for, NewShortChanIDFromInt in Hreq.
  destruct (map_of _ _ !! ChannelID channel) as [r|] eqn:Hr; [|done].
  simpl in Hreq. destruct (deref_rule (heap st) r) as [rule|] eqn:Hrule; [|done].
  simpl in Hreq.
  destruct (suggestSwap rule (newBalances channel) restrictions)
    as [suggestion|] eqn:Hsuggest; [|done].
  simpl in Hreq. simplify_eq.
  exists channels, channel, rule, restrictions, suggestion.
  split_and!; try done.
  by rewrite rules_view_lookup, Hr; simpl; rewrite Hrule.
Qed.

(** SuggestSwaps makes no error of its own, and returns no requests
    beside an error: the error is the one of the fee estimate, of the
    server's restrictions, of a swap listing, or of the channel listing. *)
Theorem SuggestSwaps_error_is_a_backend_error st e :
  SuggestSwaps st = Ret (Fail e) →
  EstimateFee (cfg (manager st)) (SweepConfTarget (params (manager st))) = Fail e
  ∨ LoopOutRestrictions (cfg (manager st)) = Fail e
  ∨ ListLoopOut (cfg (manager st)) = Fail e
  ∨ ListLoopIn (cfg (manager st)) = Fail e
  ∨ ListChannels (cfg (manager st)) = Fail e.
Proof.
  unfold SuggestSwaps. case_bool_decide; [done|].
  destruct (EstimateFee _ _) as [estimate|]; [|intros ?; simplify_eq; auto].
  case_match; [done|].
  destruct (LoopOutRestrictions _) as [restrictions|]; [|intros ?; simplify_eq; auto].
  destruct (ListLoopOut _) as [loopOut|]; [|intros ?; simplify_eq; auto].
  destruct (ListLoopIn _) as [loopIn|]; [|intros ?; simplify_eq; auto].
  rewrite getEligibleChannels_cases. case_decide.
  - by destruct (suggest _ _ _ _ _).
  - destruct (ListChannels _); [|intros ?; simplify_eq; auto 10].
    by destruct (suggest _ _ _ _ _).
Qed.

End Suggestions.

Section ParameterStore.
Context `{Loopdb} `{Rules} `{MapRange}.

Implicit Types (st : State) (m : Manager) (h : Heap) (p q : Parameters).
Implicit Types (entries : list (Z * ref)).

Lemma validate_rules_faultless h entries :
  (∀ k r, (k, r) ∈ entries →
     k ≠ 0 ∧ ∃ v, deref_rule h r = Some v ∧ rule_validate v = None) →
  validate_rules h entries = Ret None.
Proof.
  induction entries as [|[k r] rest IH]; intros Hall; simpl; [done|].
  destruct (Hall k r (list_elem_of_here _ _)) as (Hk & v & -> & ->).
  unfold ToUint64. apply Z.eqb_neq in Hk. rewrite Hk.
  apply IH. intros k' r' ?. apply Hall. by right.
Qed.

Lemma validate_rules_rejects h entries e :
  validate_rules h entries = Ret (Some e) →
  (e = ErrZeroChannelID ∧ ∃ r, (0, r) ∈ entries)
  ∨ ∃ k r v cause,
      e = ErrInvalidRule k cause ∧ (k, r) ∈ entries
      ∧ deref_rule h r = Some v ∧ rule_validate v = Some cause.
Proof.
  induction entries as [|[k r] rest IH]; simpl; [done|].
  unfold ToUint64. destruct (k =? 0) eqn:Hk.
  - apply Z.eqb_eq in Hk as ->. intros ?; simplify_eq. left. split; [done|].
    exists r. by left.
  - destruct (deref_rule h r) as [v|] eqn:Hv; [|done].
    destruct (rule_validate v) as [cause|] eqn:Hcause.
    + intros ?; simplify_eq. right. exists k, r, v, cause.
      split_and!; try done. by left.
    + intros [[-> [r' ?]]|(k' & r' & v' & cause & -> & ? & ? & ?)]%IH.
      * left. split; [done|]. exists r'. by right.
      * right. exists k', r', v', cause. split_and!; try done. by right.
Qed.

Lemma faultless_rules_entries h p :
  rules_present h p → faultless_rules h p →
  validate_rules h (range_order (map_of h (ChannelRules p))) = Ret None.
Proof.
  intros Hpresent [Hzero Hvalid]. apply validate_rules_faultless.
  intros k r Hin. pose proof (rules_present_entries _ _ _ _ Hpresent Hin) as [v Hv].
  apply elem_of_range_order in Hin.
  assert (rules_view h p !! k = Some (Some v)) as Hk
    by (by rewrite rules_view_lookup, Hin; simpl; rewrite Hv).
  split; [|eauto]. intros ->. congruence.
Qed.

(** validate accepts parameters whose rule map holds rules exactly when
    no rule is for channel id 0, every rule passes its own validation, the
    fee limit is at least the fee floor and the confirmation target at
    least the minimum; the limit and the target may equal their bounds, and
    the failure back-off is not looked at. *)
Theorem validate_accepts_exactly_the_faultless h p minConfs :
  rules_present h p →
  validate h p minConfs = Ret None ↔
  faultless_rules h p
  ∧ AbsoluteFeePerKwFloor <= SweepFeeRateLimit p
  ∧ minConfs <= SweepConfTarget p.
Proof.
  intros Hpresent. split.
  - intros Hvalid. pose proof (validate_accepts_faultless _ _ _ Hvalid) as Hnone.
    apply validate_accepts in Hvalid as (_ & Hrules & Hfee & Hconf).
    split_and!; [|done|done]. split.
    + apply eq_None_not_Some. intros ?. apply Hnone. by left.
    + intros k v Hk. destruct (rule_validate v) eqn:Hv; [|done].
      exfalso. apply Hnone. right. left. exists k, v. eauto.
  - intros (Hfaultless & Hfee & Hconf). unfold validate.
    rewrite faultless_rules_entries by done.
    assert ((SweepFeeRateLimit p <? AbsoluteFeePerKwFloor) = false) as ->
      by (apply Z.ltb_ge; lia).
    by assert ((SweepConfTarget p <? minConfs) = false) as ->
      by (apply Z.ltb_ge; lia).
Qed.

(** The error validate returns names a fault that is there, and the
    faults are looked for in a fixed order: a rule error means that the map
    has channel id 0, or that the rule of the named channel is rejected for
    the named cause; with faultless rules a fee limit below the floor gives
    the fee-limit error whatever the confirmation target is, and the
    confirmation-target error, which names the minimum, is given only when
    rules and fee limit are in order. *)
Theorem validate_error_names_the_first_fault h p minConfs :
  (validate h p minConfs = Ret (Some ErrZeroChannelID) →
   is_Some (rules_view h p !! 0))
  ∧ (∀ k cause, validate h p minConfs = Ret (Some (ErrInvalidRule k cause)) →
       ∃ v, rules_view h p !! k = Some (Some v) ∧ rule_validate v = Some cause)
  ∧ (rules_present h p → faultless_rules h p →
     SweepFeeRateLimit p < AbsoluteFeePerKwFloor →
     validate h p minConfs = Ret (Some ErrInvalidSweepFeeRateLimit))
  ∧ (rules_present h p → faultless_rules h p →
     AbsoluteFeePerKwFloor <= SweepFeeRateLimit p →
     SweepConfTarget p < minConfs →
     validate h p minConfs = Ret (Some (ErrConfTarget minConfs))).
Proof.
  split_and!.
  - unfold validate.
    destruct (validate_rules h _) as [[e|]|] eqn:Hrules; [| |done].
    + intros ?; simplify_eq.
      apply validate_rules_rejects in Hrules as [[_ [r Hr]]|(?&?&?&?&?&_)]; [|done].
      apply elem_of_range_order in Hr. by rewrite rules_view_lookup, Hr.
    + repeat case_match; done.
  - intros k cause. unfold validate.
    destruct (validate_rules h _) as [[e|]|] eqn:Hrules; [| |done].
    + intros ?; simplify_eq.
      apply validate_rules_rejects in Hrules
        as [[? _]|(k' & r & v & cause' & ? & Hr & Hv & Hcause)]; [done|].
      simplify_eq. exists v. split; [|done].
      apply elem_of_range_order in Hr. by rewrite rules_view_lookup, Hr; simpl; rewrite Hv.
    + repeat case_match; done.
  - intros Hpresent Hfaultless Hfee. unfold validate.
    rewrite faultless_rules_entries by done.
    by assert ((SweepFeeRateLimit p <? AbsoluteFeePerKwFloor) = true) as ->
      by (apply Z.ltb_lt; lia).
  - intros Hpresent Hfaultless Hfee Hconf. unfold validate.
    rewrite faultless_rules_entries by done.
    assert ((SweepFeeRateLimit p <? AbsoluteFeePerKwFloor) = false) as ->
      by (apply Z.ltb_ge; lia).
    by assert ((SweepConfTarget p <? minConfs) = true) as ->
      by (apply Z.ltb_lt; lia).
Qed.

(** *** The store only grows *)

Lemma clone_rules_returns src entries h copy h' :
  clone_rules src entries h copy = Ret h' →
  ∀ k r, (k, r) ∈ entries → is_Some (deref_rule src r).
Proof.
  revert h. induction entries as [|[k0 r0] rest IH]; intros h; simpl.
  - intros _ k r Hin. by apply elem_of_nil in Hin.
  - destruct (deref_rule src r0) as [v|] eqn:Hv; [|done].
    intros Hrest k r [?|Hin]%elem_of_cons; [simplify_eq; eauto|].
    by eapply IH.
Qed.

Lemma cloneParameters_returns h p h' q :
  cloneParameters h p = Ret (h', q) →
  rules_present h p
  ∧ rule_cells h ⊆ rule_cells h'
  ∧ map_cells h ⊆ map_cells h'.
Proof.
  intros Hclone.
  assert (rules_present h p) as Hpresent.
  { revert Hclone. unfold cloneParameters, alloc_map.
    destruct (clone_rules h _ _ _) as [h1|] eqn:Hrules; [|done]. intros _.
    intros k v. rewrite rules_view_lookup.
    destruct (map_of h (ChannelRules p) !! k) as [r|] eqn:Hk; [|done].
    intros ?; simplify_eq/=. apply elem_of_range_order in Hk.
    by eapply clone_rules_returns. }
  split; [done|].
  destruct (cloneParameters_spec _ _ Hpresent)
    as (h1 & q1 & copy & mcopy & Hclone1 & _ & Hfresh & Hmaps & Hsub & _).
  rewrite Hclone1 in Hclone. simplify_eq. split; [done|].
  rewrite Hmaps. apply insert_subseteq. by apply not_elem_of_dom.
Qed.

(** GetParameters and SetParameters never overwrite or remove a cell of
    the store: every rule and every rule map that existed before the call
    is there afterwards, unchanged, whether the call succeeds or returns an
    error. GetParameters leaves the manager as it is. *)
Theorem parameter_calls_only_add_cells st :
  (∀ st' q, GetParameters st = Ret (st', q) →
     rule_cells (heap st) ⊆ rule_cells (heap st')
     ∧ map_cells (heap st) ⊆ map_cells (heap st')
     ∧ manager st' = manager st)
  ∧ (∀ p st' err, SetParameters st p = Ret (st', err) →
       rule_cells (heap st) ⊆ rule_cells (heap st')
       ∧ map_cells (heap st) ⊆ map_cells (heap st')
       ∧ cfg (manager st') = cfg (manager st)).
Proof.
  split.
  - intros st' q. unfold GetParameters.
    destruct (cloneParameters _ _) as [[h1 q1]|] eqn:Hclone; [|done].
    intros ?; simplify_eq. by apply cloneParameters_returns in Hclone as (_ & ? & ?).
  - intros p st' err. unfold SetParameters.
    destruct (validate _ _ _) as [[e|]|]; [by intros ?; simplify_eq| |done].
    destruct (cloneParameters _ _) as [[h1 q1]|] eqn:Hclone; [|done].
    intros ?; simplify_eq. by apply cloneParameters_returns in Hclone as (_ & ? & ?).
Qed.

(** SetParameters stores a copy of its argument: whatever the caller
    afterwards does to the rule map it passed in (adding entries, removing
    entries, writing through the rule pointers), the stored parameters
    keep the value the argument had at the call. *)
Theorem SetParameters_stores_an_independent_copy st p :
  validate (heap st) p (MinimumConfirmations (cfg (manager st))) = Ret None →
  (∀ a, ChannelRules p = Some a → is_Some (map_cells (heap st) !! a)) →
  ∃ st1,
    SetParameters st p = Ret (st1, None)
    ∧ value_equal (heap st1) (params (manager st1)) (heap st) p
    ∧ ∀ h2, rtc (mutate p) (heap st1) h2 →
        value_equal h2 (params (manager st1)) (heap st) p.
Proof.
  intros Hvalid Halloc.
  pose proof (validate_accepts _ _ _ Hvalid) as (Hpresent & _).
  destruct (cloneParameters_spec _ _ Hpresent)
    as (h1 & q1 & a1 & m1 & Hclone & Hq1 & Hfresh & Hmaps & Hsub & Hcells & Hequal).
  exists {| heap := h1; manager := {| cfg := cfg (manager st); params := q1 |} |}.
  split_and!.
  - unfold SetParameters. by rewrite Hvalid, Hclone.
  - done.
  - intros h2 Hsteps. simpl in *.
    assert (map_of h1 (ChannelRules p) = map_of (heap st) (ChannelRules p)) as Hsame.
    { destruct (ChannelRules p) as [a|] eqn:Hp; [|done]. simpl.
      destruct (Halloc a eq_refl) as [ma Hma].
      rewrite Hmaps, lookup_insert_ne, Hma; [done|].
      intros ->. apply Hfresh. apply elem_of_dom. eauto. }
    assert (apart (rule_cells h1 ∖ rule_cells (heap st)) q1 p h1) as Hapart.
    { split_and!.
      - by apply map_subseteq_difference_l.
      - rewrite Hq1. simpl. rewrite Hmaps, lookup_insert_eq. simpl.
        intros k l Hk. destruct (Hcells k l Hk) as [Hnew Hold].
        rewrite dom_difference_L. by apply elem_of_difference.
      - rewrite Hsame. intros k l Hk Hl.
        rewrite dom_difference_L in Hl. apply elem_of_difference in Hl as [_ Hl].
        apply Hl. apply elem_of_dom.
        apply (Hpresent k (deref_rule (heap st) (Some l))).
        by rewrite rules_view_lookup, Hk.
      - rewrite Hq1. intros Heq. symmetry in Heq.
        apply Hfresh. apply elem_of_dom. by apply Halloc.
      - rewrite Hq1. eauto. }
    destruct (mutate_rtc_apart _ _ _ _ _ Hapart Hsteps) as [_ Hview].
    destruct Hequal as (? & ? & ? & Hrules).
    split_and!; try done. by rewrite Hview.
Qed.

(** A manager made by NewManager has the default parameters with no
    rule: GetParameters returns a value equal to them, SuggestSwaps returns
    no request and no error whatever the backends would answer, and the
    defaults pass validation exactly when the minimum number of
    confirmations does not exceed the default confirmation target. *)
Theorem NewManager_has_valid_defaults_and_suggests_nothing
    h config DefaultSweepConfTarget rules :
  map_of h rules = ∅ →
  let defaults := defaultParameters DefaultSweepConfTarget rules in
  let st := {| heap := h; manager := NewManager config defaults |} in
  (∃ st' q, GetParameters st = Ret (st', q) ∧ value_equal (heap st') q h defaults)
  ∧ SuggestSwaps st = Ret (Ok [])
  ∧ (validate h defaults (MinimumConfirmations config) = Ret None ↔
     MinimumConfirmations config <= DefaultSweepConfTarget).
Proof.
  intros Hempty defaults st.
  assert (rules_present h defaults) as Hpresent.
  { intros k v. unfold rules_view. simpl. by rewrite Hempty, fmap_empty, lookup_empty. }
  split_and!.
  - destruct (cloneParameters_spec _ _ Hpresent)
      as (h1 & q1 & _ & _ & Hclone & _ & _ & _ & _ & _ & Hequal).
    exists {| heap := h1; manager := manager st |}, q1.
    unfold GetParameters. simpl. by rewrite Hclone.
  - unfold SuggestSwaps. simpl. rewrite Hempty. by rewrite bool_decide_eq_true_2.
  - assert (faultless_rules h defaults) as Hfaultless.
    { unfold faultless_rules, rules_view. simpl. rewrite Hempty, fmap_empty.
      split; [apply lookup_empty|]. intros k v. by rewrite lookup_empty. }
    unfold validate. rewrite faultless_rules_entries by done. simpl.
    change (defaultSweepFeeRateLimit <? AbsoluteFeePerKwFloor) with false. simpl.
    destruct (DefaultSweepConfTarget <? MinimumConfirmations config) eqn:Hconf.
    + apply Z.ltb_lt in Hconf. split; [done|lia].
    + apply Z.ltb_ge in Hconf. done.
Qed.

End ParameterStore.

Section Fees.
Context `{Loopdb} `{Rules} `{MapRange}.

Lemma ppmToSat_exact amount ppm :
  0 <= amount <= max_int64 → 0 <= ppm <= max_int64 → amount * ppm < 2 ^ 64 →
  ppmToSat amount ppm = amount * ppm / FeeBase.
Proof.
  unfold ppmToSat, to_uint64, max_int64, FeeBase. intros Ha Hp Hprod.
  rewrite (Z.mod_small amount), (Z.mod_small ppm), (Z.mod_small (amount * ppm)) by nia.
  apply wrap_int64_id. unfold min_int64, max_int64.
  assert (0 <= amount * ppm / 1000000) by (apply Z.div_pos; nia).
  assert (amount * ppm / 1000000 <= amount * ppm)
    by (apply Z.div_le_upper_bound; nia).
  assert (amount * ppm / 1000000 < 2 ^ 63)
    by (apply Z.div_lt_upper_bound; lia).
  lia.
Qed.

(** Where the product of amount and parts per million is a uint64,
    ppmToSat is that product divided by a million, rounded down; for at
    most a million parts it lies between 0 and the amount. *)
Theorem ppmToSat_is_the_share_of_the_amount amount ppm :
  0 <= amount <= max_int64 → 0 <= ppm <= 1000000 → amount * ppm < 2 ^ 64 →
  ppmToSat amount ppm = amount * ppm / 1000000
  ∧ 0 <= ppmToSat amount ppm <= amount.
Proof.
  intros Ha Hp Hprod.
  rewrite ppmToSat_exact by (unfold max_int64 in *; lia). unfold FeeBase.
  split; [done|]. split.
  - apply Z.div_pos; nia.
  - apply Z.div_le_upper_bound; nia.
Qed.

(** For a recommended amount from 0 to 1844674407370955 satoshi, the
    request allows a hundredth of the amount for routing the swap and a
    two-hundredth for the swap fee, both rounded down. *)
Theorem makeLoopOutRequest_fee_budgets m suggestion :
  0 <= Amount suggestion <= 1844674407370955 →
  MaxSwapRoutingFee (makeLoopOutRequest m suggestion) = Amount suggestion / 100
  ∧ MaxSwapFee (makeLoopOutRequest m suggestion) = Amount suggestion / 200
  ∧ MaxSwapFee (makeLoopOutRequest m suggestion)
    <= MaxSwapRoutingFee (makeLoopOutRequest m suggestion)
    <= Amount suggestion.
Proof.
  intros Hamount. simpl.
  assert (ppmToSat (Amount suggestion) defaultRoutingFeePPM = Amount suggestion / 100)
    as ->.
  { unfold defaultRoutingFeePPM.
    rewrite ppmToSat_exact by (unfold max_int64; lia). unfold FeeBase.
    change 1000000 with (100 * 10000). apply Z.div_mul_cancel_r; lia. }
  assert (ppmToSat (Amount suggestion) defaultSwapFeePPM = Amount suggestion / 200)
    as ->.
  { unfold defaultSwapFeePPM.
    rewrite ppmToSat_exact by (unfold max_int64; lia). unfold FeeBase.
    change 1000000 with (200 * 5000). apply Z.div_mul_cancel_r; lia. }
  split_and!; try done.
  - apply Z.div_le_compat_l; lia.
  - apply Z.div_le_upper_bound; lia.
Qed.

(** For a rate from 0 to a quarter of the greatest int64, in satoshi per
    kiloweight, satPerKwToSatPerVByte is a 250th of it, rounded down; a fee
    limit that validate accepts is therefore at least 1 satoshi per virtual
    byte. *)
Theorem satPerKwToSatPerVByte_is_a_250th h p minConfs :
  (∀ satPerKw, 0 <= satPerKw → 4 * satPerKw <= max_int64 →
     satPerKwToSatPerVByte satPerKw = satPerKw / 250)
  ∧ (validate h p minConfs = Ret None →
     4 * SweepFeeRateLimit p <= max_int64 →
     1 <= satPerKwToSatPerVByte (SweepFeeRateLimit p)).
Proof.
  assert (∀ satPerKw, 0 <= satPerKw → 4 * satPerKw <= max_int64 →
            satPerKwToSatPerVByte satPerKw = satPerKw / 250) as Hrate.
  { intros satPerKw Hpos Hmax. unfold satPerKwToSatPerVByte, FeePerKVByte.
    rewrite (wrap_int64_id (satPerKw * 4)) by (unfold min_int64, max_int64 in *; lia).
    rewrite Z.quot_div_nonneg by lia.
    change 1000 with (250 * 4). rewrite Z.div_mul_cancel_r by lia.
    apply wrap_int64_id. unfold min_int64, max_int64 in *.
    assert (0 <= satPerKw / 250) by (apply Z.div_pos; lia).
    assert (satPerKw / 250 <= satPerKw) by (apply Z.div_le_upper_bound; lia).
    lia. }
  split; [done|].
  intros (_ & _ & Hfee & _)%validate_accepts Hmax.
  unfold AbsoluteFeePerKwFloor in Hfee.
  rewrite Hrate by lia. apply Z.div_le_lower_bound; lia.
Qed.

End Fees.

Import Examples.

Lemma getEligibleChannels_ignores_record_order_witness :
  getEligibleChannels (manager (state_at 500 2000 [] []))
    [failedOutA; pendingOutB] []
  = getEligibleChannels (manager (state_at 500 2000 [] []))
      [pendingOutB; failedOutA] [].
Proof.
  apply (getEligibleChannels_ignores_record_order
           (manager (state_at 500 2000 [] []))
           [failedOutA; pendingOutB] [] [pendingOutB; failedOutA] []).
  - apply perm_swap.
  - reflexivity.
Defined.

Lemma SuggestSwaps_one_request_per_recommendation_witness :
  SuggestSwaps (state_at 500 0 [succeededOutA] [])
  = Ret (Ok (omap (request_for stored_heap (manager (state_at 500 0 [succeededOutA] []))
                     {| Minimum := 250000; Maximum := 1000000 |})
               [chanA; chanB])).
Proof.
  apply (SuggestSwaps_one_request_per_recommendation
           (state_at 500 0 [succeededOutA] []) 500
           {| Minimum := 250000; Maximum := 1000000 |} [succeededOutA] []
           [chanA; chanB]).
  - apply (bool_decide_unpack _). vm_compute. exact I.
  - reflexivity.
  - simpl. lia.
  - reflexivity.
  - reflexivity.
  - reflexivity.
  - vm_compute. reflexivity.
Defined.

Lemma SuggestSwaps_requests_come_from_stored_rules_witness :
  ∃ channels channel rule restrictions suggestion,
    Liquidity.ListChannels (cfg (manager (state_at 500 0 [] []))) = Ok channels
    ∧ channel ∈ channels
    ∧ rules_view (heap (state_at 500 0 [] [])) (params (manager (state_at 500 0 [] [])))
        !! ChannelID channel = Some (Some rule)
    ∧ LoopOutRestrictions (cfg (manager (state_at 500 0 [] []))) = Ok restrictions
    ∧ suggestSwap rule (newBalances channel) restrictions = Some suggestion
    ∧ requestA = makeLoopOutRequest (manager (state_at 500 0 [] [])) suggestion
    ∧ ReqAmount requestA = Amount suggestion
    ∧ OutgoingChanSet requestA = [Channel suggestion]
    ∧ MaxMinerFee requestA = 15000
    ∧ MaxPrepayAmount requestA = 30000
    ∧ MaxPrepayRoutingFee requestA = 150
    ∧ ReqSweepConfTarget requestA
      = SweepConfTarget (params (manager (state_at 500 0 [] []))).
Proof.
  apply (SuggestSwaps_requests_come_from_stored_rules
           (state_at 500 0 [] []) [requestA] requestA).
  - vm_compute. reflexivity.
  - apply list_elem_of_here.
Defined.

Lemma SuggestSwaps_error_is_a_backend_error_witness :
  EstimateFee (cfg (manager state_without_estimate))
    (SweepConfTarget (params (manager state_without_estimate)))
  = Fail (ErrExternal "fee estimator down")
  ∨ LoopOutRestrictions (cfg (manager state_without_estimate))
    = Fail (ErrExternal "fee estimator down")
  ∨ ListLoopOut (cfg (manager state_without_estimate))
    = Fail (ErrExternal "fee estimator down")
  ∨ ListLoopIn (cfg (manager state_without_estimate))
    = Fail (ErrExternal "fee estimator down")
  ∨ Liquidity.ListChannels (cfg (manager state_without_estimate))
    = Fail (ErrExternal "fee estimator down").
Proof.
  apply (SuggestSwaps_error_is_a_backend_error state_without_estimate).
  vm_compute. reflexivity.
Defined.

Lemma validate_accepts_exactly_the_faultless_witness :
  validate stored_heap goodParams 3 = Ret None ↔
  faultless_rules stored_heap goodParams
  ∧ AbsoluteFeePerKwFloor <= SweepFeeRateLimit goodParams
  ∧ 3 <= SweepConfTarget goodParams.
Proof.
  apply (validate_accepts_exactly_the_faultless stored_heap goodParams 3).
  apply (bool_decide_unpack _). vm_compute. exact I.
Defined.

Lemma validate_error_names_the_first_fault_witness :
  validate stored_heap cheapParams 12 = Ret (Some ErrInvalidSweepFeeRateLimit).
Proof.
  refine (proj1 (proj2 (proj2 (validate_error_names_the_first_fault
                                 stored_heap cheapParams 12))) _ _ _).
  - apply (bool_decide_unpack _). vm_compute. exact I.
  - unfold faultless_rules.
    assert (rules_view stored_heap cheapParams = {[5 := Some ruleLow]}) as ->
      by (vm_compute; reflexivity).
    split; [done|]. intros k v [_ ?]%lookup_singleton_Some. by simplify_eq.
  - vm_compute. reflexivity.
Defined.

Lemma parameter_calls_only_add_cells_witness :
  ∃ st' q,
    GetParameters (state_at 500 0 [] []) = Ret (st', q)
    ∧ rule_cells stored_heap ⊆ rule_cells (heap st')
    ∧ map_cells stored_heap ⊆ map_cells (heap st')
    ∧ manager st' = manager (state_at 500 0 [] []).
Proof.
  destruct (GetParameters (state_at 500 0 [] [])) as [[st' q]|] eqn:Hget;
    [|vm_compute in Hget; discriminate].
  exists st', q. split; [done|].
  by apply (proj1 (parameter_calls_only_add_cells (state_at 500 0 [] [])) st' q).
Defined.

Lemma SetParameters_stores_an_independent_copy_witness :
  ∃ st1 h2,
    SetParameters (state_at 500 0 [] []) goodParams = Ret (st1, None)
    ∧ mutate goodParams (heap st1) h2
    ∧ rules_view h2 goodParams !! 5 = Some (Some ruleHigh)
    ∧ value_equal h2 (params (manager st1)) stored_heap goodParams.
Proof.
  destruct (SetParameters_stores_an_independent_copy
              (state_at 500 0 [] []) goodParams)
    as (st1 & Hset & _ & Hkept).
  { vm_compute. reflexivity. }
  { intros a [= <-]. vm_compute. eauto. }
  exists st1.
  assert (∃ h2, mutate goodParams (heap st1) h2
                ∧ rules_view h2 goodParams !! 5 = Some (Some ruleHigh))
    as (h2 & Hstep & Hchanged).
  { vm_compute in Hset. injection Hset as <-.
    eexists. split.
    - eapply (mutate_modify (H0 := rules_model) _ _ 5 _ ruleHigh); vm_compute; eauto.
    - vm_compute. reflexivity. }
  exists h2. split_and!; try done.
  by apply (Hkept h2), rtc_once.
Defined.

Lemma NewManager_has_valid_defaults_and_suggests_nothing_witness :
  let defaults := defaultParameters 9 (Some 1%positive) in
  let st := {| heap := initial_heap;
               manager := NewManager (cfg (manager state_without_estimate)) defaults |} in
  (∃ st' q, GetParameters st = Ret (st', q)
            ∧ value_equal (heap st') q initial_heap defaults)
  ∧ SuggestSwaps st = Ret (Ok [])
  ∧ (validate initial_heap defaults
       (MinimumConfirmations (cfg (manager state_without_estimate))) = Ret None ↔
     MinimumConfirmations (cfg (manager state_without_estimate)) <= 9).
Proof.
  apply (NewManager_has_valid_defaults_and_suggests_nothing
           initial_heap (cfg (manager state_without_estimate)) 9 (Some 1%positive)).
  vm_compute. reflexivity.
Defined.

Lemma ppmToSat_is_the_share_of_the_amount_witness :
  ppmToSat 250000 5000 = 250000 * 5000 / 1000000
  ∧ 0 <= ppmToSat 250000 5000 <= 250000.
Proof.
  apply (ppmToSat_is_the_share_of_the_amount 250000 5000).
  - unfold max_int64. lia.
  - lia.
  - lia.
Defined.

Lemma makeLoopOutRequest_fee_budgets_witness :
  let m := manager (state_at 500 0 [] []) in
  let suggestion := {| Amount := 250000; Channel := 1 |} in
  MaxSwapRoutingFee (makeLoopOutRequest m suggestion) = Amount suggestion / 100
  ∧ MaxSwapFee (makeLoopOutRequest m suggestion) = Amount suggestion / 200
  ∧ MaxSwapFee (makeLoopOutRequest m suggestion)
    <= MaxSwapRoutingFee (makeLoopOutRequest m suggestion)
    <= Amount suggestion.
Proof.
  apply (makeLoopOutRequest_fee_budgets (manager (state_at 500 0 [] []))
           {| Amount := 250000; Channel := 1 |}).
  simpl. lia.
Defined.

Lemma getEligibleChannels_is_a_filter_of_the_listing_witness :
  getEligibleChannels (manager (state_at 500 0 [] [])) [pendingUnrestrictedOut] []
  = Ok [].
Proof.
  apply (proj1 (getEligibleChannels_is_a_filter_of_the_listing
                  (manager (state_at 500 0 [] [])) [pendingUnrestrictedOut] [])).
  left. apply Exists_cons_hd. split; reflexivity.
Defined.

Lemma satPerKwToSatPerVByte_is_a_250th_witness :
  satPerKwToSatPerVByte 750 = 750 / 250.
Proof.
  apply (proj1 (satPerKwToSatPerVByte_is_a_250th stored_heap goodParams 3) 750).
  - lia.
  - unfold max_int64. lia.
Defined.

End LiquidityMore.

(** ** Properties of the loop in command *)

Module CmdProofs.
Import Cmd.

Section Command.
Context `{Looprpc}.

(** Runs the body of loopIn in the goal: one case for each way the calls
    it makes can come out. *)
Ltac branch :=
  match goal with
  | |- context [match ?x with _ => _ end] =>
      lazymatch x with
      | context [match _ with _ => _ end] => fail
      | _ => destruct x eqn:?
      end
  end.

Ltac run_loopIn :=
  unfold loopIn, amount_text, run, defer, report, try, check, return_, emit,
    mbind, body_bind, mret, body_ret, fmap, option_fmap, option_map;
  cbn [fst snd app head];
  repeat (branch; cbn [fst snd app negb andb head]).

(** The same with the run named once: the goal is left to be shown of
    the trace and the result of each case. *)
Ltac cases_of_loopIn ctx :=
  let Hrun := fresh "Hrun" in
  destruct (loopIn ctx) as [? ?] eqn:Hrun; cbn [fst snd];
  revert Hrun; run_loopIn; intros [= <- <-].

(** Takes a membership in a written-out list apart, and finds a member of
    such a list. *)
Ltac member H :=
  repeat first
    [ apply elem_of_nil in H; destruct H
    | apply elem_of_cons in H as [H|H]; [simplify_eq|] ].

Ltac listed :=
  solve [repeat first [apply list_elem_of_here | apply list_elem_of_further]].

Lemma fee_test_false (external : bool) (fee marker : Z) :
  negb external && (fee =? marker) = false → external = true ∨ fee ≠ marker.
Proof.
  destruct external; [by left|]. simpl. intros ?%Z.eqb_neq. by right.
Qed.

Lemma flag_test_false (external : bool) (target : Z) :
  external && negb (target =? 0) = false → external = true → target = 0.
Proof.
  intros Htest ->. simpl in Htest. apply negb_false_iff in Htest. lia.
Qed.

Lemma to_int32_range (z : Z) : - 2 ^ 31 <= to_int32 z < 2 ^ 31.
Proof. unfold to_int32. pose proof (Z.mod_pos_bound (z + 2 ^ 31) (2 ^ 32)). lia. Qed.

Lemma to_int32_zero (z : Z) : to_int32 z = 0 ↔ ∃ k, z = k * 2 ^ 32.
Proof.
  unfold to_int32. split.
  - intros Hz. exists ((z + 2 ^ 31) / 2 ^ 32).
    pose proof (Z.div_mod (z + 2 ^ 31) (2 ^ 32)). lia.
  - intros [k ->].
    replace (k * 2 ^ 32 + 2 ^ 31) with (2 ^ 31 + k * 2 ^ 32) by lia.
    rewrite Z.mod_add by lia. rewrite Z.mod_small; lia.
Qed.

(** A swap is requested from the daemon only after the daemon has
    quoted it and the quote has been displayed and accepted: when a run of
    loopIn asks for a swap, it has got a client, asked that client for one
    quote, got one, shown it (displayInDetails returned nil), and for a
    swap whose htlc the client publishes the quoted fee was not the marker
    of a failed estimate; the swap request repeats amount, external flag,
    confirmation target and last hop of the quote request, takes its fee
    limits from getInLimits of the quote and its route hints from the
    quote, not from the command line, and carries the validated label.
    After the request the run only prints and releases the client. *)
Theorem loopIn_swap_follows_an_accepted_quote ctx req :
  EvLoopIn req ∈ (loopIn ctx).1 →
  ∃ client quoteReq quote after,
    getClient ctx = Ok client
    ∧ (loopIn ctx).1
      = [EvGetClient; EvGetLoopInQuote quoteReq;
         EvDisplayInDetails quoteReq quote (ctx_Bool ctx "verbose");
         EvLoopIn req] ++ after
    ∧ (∀ ev, ev ∈ after → ev = EvCleanup ∨ ∃ text, ev = EvPrint text)
    ∧ GetLoopInQuote client quoteReq = Ok quote
    ∧ displayInDetails quoteReq quote (ctx_Bool ctx "verbose") = None
    ∧ (ExternalHtlc quoteReq = true
       ∨ HtlcPublishFeeSat quote ≠ MinerFeeEstimationFailed)
    ∧ req = {| ReqAmt := Amt quoteReq;
               MaxMinerFee := maxMinerFee (getInLimits quote);
               MaxSwapFee := maxSwapFee (getInLimits quote);
               ReqExternalHtlc := ExternalHtlc quoteReq;
               HtlcConfTarget := ConfTarget quoteReq;
               Label := ctx_String ctx labelFlag_Name;
               Initiator := defaultInitiator;
               LastHop := LoopInLastHop quoteReq;
               RouteHints := QuoteRouteHints quote |}
    ∧ labels_Validate (Label req) = None.
Proof.
  cases_of_loopIn ctx; intros Hin; member Hin.
  all: eexists _, _, _, _; split_and!; [done|cbn [app]; reflexivity|..];
    [|done|done|by apply fee_test_false|done|done].
  all: intros ev Hev; member Hev; eauto.
Qed.

(** Flags that exclude each other never reach the daemon: when
    external is set and the confirmation target, as the int32 the command
    makes of it, is not zero, or when the private flag and the route_hints
    flag are both given (whatever value private was given), a run of loopIn
    asks for no quote and no swap; it returns nil only when it showed the
    help text because no amount was given; and in the first case, once a
    client was obtained, the error is the one about external and
    conf_target, whatever the label is. *)
Theorem loopIn_exclusive_flags_never_reach_the_daemon ctx :
  (ctx_Bool ctx "external" = true
   ∧ to_int32 (ctx_Uint64 ctx confTargetFlag_Name) ≠ 0)
  ∨ (ctx_IsSet ctx privateFlag_Name = true
     ∧ ctx_IsSet ctx routeHintsFlag_Name = true) →
  (∀ ev, ev ∈ (loopIn ctx).1 →
     ev = EvShowCommandHelp "in" ∨ ev = EvGetClient ∨ ev = EvCleanup)
  ∧ ((loopIn ctx).2 = None → (loopIn ctx).1 = [EvShowCommandHelp "in"])
  ∧ (ctx_Bool ctx "external" = true →
     to_int32 (ctx_Uint64 ctx confTargetFlag_Name) ≠ 0 →
     EvCleanup ∈ (loopIn ctx).1 →
     (loopIn ctx).2 = Some ErrExternalAndConfTarget).
Proof.
  intros Hflags.
  assert (ctx_Bool ctx "external"
          && negb (to_int32 (ctx_Uint64 ctx confTargetFlag_Name) =? 0) = true
          ∨ ctx_IsSet ctx privateFlag_Name && ctx_IsSet ctx routeHintsFlag_Name = true)
    as Htests.
  { destruct Hflags as [[-> ?]|[-> ->]]; [left|by right].
    simpl. by apply negb_true_iff, Z.eqb_neq. }
  assert (ctx_Bool ctx "external" = true →
          to_int32 (ctx_Uint64 ctx confTargetFlag_Name) ≠ 0 →
          ctx_Bool ctx "external"
          && negb (to_int32 (ctx_Uint64 ctx confTargetFlag_Name) =? 0) = true)
    as Hfirst.
  { intros -> ?. simpl. by apply negb_true_iff, Z.eqb_neq. }
  clear Hflags. cases_of_loopIn ctx.
  all: try (exfalso; destruct Htests; congruence).
  all: split_and!;
    [ intros ev Hev; member Hev; eauto
    | try done
    | intros Hexternal Htarget Hin; specialize (Hfirst Hexternal Htarget);
      member Hin; congruence ].
Qed.

(** The quote request is made of the command line: when a run of
    loopIn asks for a quote, the amount is what parseAmt made of the amt
    flag, or of the first argument when that flag is not set; the
    confirmation target is the conf_target flag cut to an int32, and is 0
    when external is set; private is the value of the private flag; the
    route hints are those parsed from the route_hints flag when it is
    given and none otherwise; the last hop is the parsed last_hop flag
    when it is given and nil otherwise; and the label has passed
    labels.Validate before the quote is asked for. *)
Theorem loopIn_quote_request_is_made_of_the_flags ctx req :
  EvGetLoopInQuote req ∈ (loopIn ctx).1 →
  (∃ text, amount_text ctx = Some text ∧ parseAmt text = Ok (Amt req))
  ∧ ConfTarget req = to_int32 (ctx_Uint64 ctx confTargetFlag_Name)
  ∧ - 2 ^ 31 <= ConfTarget req < 2 ^ 31
  ∧ ExternalHtlc req = ctx_Bool ctx "external"
  ∧ (ExternalHtlc req = true → ConfTarget req = 0)
  ∧ Private req = ctx_Bool ctx privateFlag_Name
  ∧ (if ctx_IsSet ctx routeHintsFlag_Name
     then ctx_IsSet ctx privateFlag_Name = false
          ∧ json_Unmarshal (ctx_String ctx routeHintsFlag_Name)
            = Ok (LoopInRouteHints req)
     else LoopInRouteHints req = [])
  ∧ (if ctx_IsSet ctx lastHopFlag_Name
     then ∃ vertex, NewVertexFromStr (ctx_String ctx lastHopFlag_Name) = Ok vertex
                    ∧ LoopInLastHop req = Some vertex
     else LoopInLastHop req = None)
  ∧ labels_Validate (ctx_String ctx labelFlag_Name) = None.
Proof.
  pose proof (to_int32_range (ctx_Uint64 ctx confTargetFlag_Name)) as Hrange.
  pose proof (flag_test_false (ctx_Bool ctx "external")
                (to_int32 (ctx_Uint64 ctx confTargetFlag_Name))) as Hflag.
  cases_of_loopIn ctx; intros Hin; member Hin.
  all: cbn [Amt ConfTarget ExternalHtlc Private LoopInRouteHints LoopInLastHop].
  all: split; [by eexists|]; split; [reflexivity|]; split; [lia|];
    split; [reflexivity|]; split; [by auto|]; split; [reflexivity|];
    split; [|split; [by eauto|done]].
  all: try reflexivity.
  all: split; [|done].
  all: match goal with
       | Htest : _ && _ = false |- _ =>
           apply andb_false_iff in Htest as [?|?]; congruence
       end.
Qed.

(** The test that excludes conf_target with external sees the
    flag only as an int32: with external set and a confirmation target
    that is a non-zero multiple of 2^32, a run of loopIn whose amount
    parses, whose client connects and whose label is valid is not refused;
    it asks the daemon for a quote for an external htlc with confirmation
    target 0. *)
Theorem loopIn_external_accepts_conf_target_multiple_of_2_32
    ctx k text amt client :
  ctx_Bool ctx "external" = true →
  ctx_Uint64 ctx confTargetFlag_Name = k * 2 ^ 32 →
  0 < k < 2 ^ 32 →
  amount_text ctx = Some text →
  parseAmt text = Ok amt →
  getClient ctx = Ok client →
  labels_Validate (ctx_String ctx labelFlag_Name) = None →
  ctx_IsSet ctx lastHopFlag_Name = false →
  ctx_IsSet ctx routeHintsFlag_Name = false →
  ctx_Uint64 ctx confTargetFlag_Name ≠ 0
  ∧ (loopIn ctx).2 ≠ Some ErrExternalAndConfTarget
  ∧ ∃ rest,
      (loopIn ctx).1
      = EvGetClient
        :: EvGetLoopInQuote
             {| Amt := amt; ConfTarget := 0; ExternalHtlc := true;
                LoopInLastHop := None; LoopInRouteHints := [];
                Private := ctx_Bool ctx privateFlag_Name |}
        :: rest.
Proof.
  intros Hexternal Htarget Hk Htext Hamt Hclient Hlabel Hhop Hhints.
  assert (to_int32 (ctx_Uint64 ctx confTargetFlag_Name) = 0) as Hzero
    by (apply to_int32_zero; eauto).
  split; [lia|].
  unfold amount_text in Htext.
  cases_of_loopIn ctx; cbn [head] in Htext.
  all: rewrite ?Hexternal, ?Hzero, ?Hhop, ?Hhints, ?andb_false_r in *;
    cbn [andb negb Z.eqb] in *; simplify_eq; try congruence.
  all: repeat match goal with
              | Hparsed : parseAmt ?text = Ok ?a |- _ =>
                  assert (a = amt) by congruence; subst a; clear Hparsed
              end.
  all: split; [done|by eexists].
Qed.

(** The client is released exactly once and last: a run of loopIn
    contains the release of the client only when getClient has returned
    one, and then the run starts with getClient, ends with the release,
    and neither occurs in between; conversely every run that got a client
    releases it, whichever way it returns. *)
Theorem loopIn_releases_the_client_once_and_last ctx :
  (EvCleanup ∈ (loopIn ctx).1 →
   ∃ client mid,
     getClient ctx = Ok client
     ∧ (loopIn ctx).1 = EvGetClient :: mid ++ [EvCleanup]
     ∧ (EvCleanup ∉ mid) ∧ (EvGetClient ∉ mid))
  ∧ (∀ client, EvGetClient ∈ (loopIn ctx).1 → getClient ctx = Ok client →
       EvCleanup ∈ (loopIn ctx).1).
Proof.
  cases_of_loopIn ctx; split.
  all: try (intros Hin; member Hin; fail).
  all: try (intros client Hin Hclient;
            first [congruence | listed | solve [member Hin]]).
  all: intros _; eexists _;
    lazymatch goal with
    | |- ∃ mid, _ ∧ EvGetClient :: ?l = _ ∧ _ => exists (removelast l)
    end;
    cbn [removelast app]; split_and!; [done|reflexivity|..].
  all: intros Hin; member Hin.
Qed.

(** The error about the miner fee estimate is returned exactly
    in the runs that got a client, asked it for one quote for an htlc the
    client is to publish, were answered with the marker of a failed
    estimate as the publication fee, and then did nothing but release the
    client: the quote is not displayed and no swap is requested. *)
Theorem loopIn_fee_estimate_failure_stops_before_display ctx :
  (loopIn ctx).2 = Some ErrMinerFeeEstimation ↔
  ∃ client req quote,
    getClient ctx = Ok client
    ∧ (loopIn ctx).1 = [EvGetClient; EvGetLoopInQuote req; EvCleanup]
    ∧ GetLoopInQuote client req = Ok quote
    ∧ ExternalHtlc req = false
    ∧ HtlcPublishFeeSat quote = MinerFeeEstimationFailed.
Proof.
  cases_of_loopIn ctx; split.
  all: try (intros Herr; discriminate Herr).
  all: try (intros (client & req & quote & Hclient & Htrace & _); simplify_eq; fail).
  all: try (intros _; eexists _, _, _; split_and!; [done|reflexivity|done|..];
            cbn [ExternalHtlc];
            match goal with
            | Htest : negb _ && (_ =? _) = true |- _ =>
                apply andb_true_iff in Htest as [?%negb_true_iff ?%Z.eqb_eq]
            end; done).
  all: intros (client & req & quote & Hclient & Htrace & Hquote & Hexternal & Hfee);
    simplify_eq; congruence.
Qed.

(** loopIn returns nil in two cases only: no amount was given,
    neither as flag nor as argument, and all it did was show the help of
    the command, which returned nil; or the daemon accepted the swap
    request, and the run printed that the swap is initiated, the swap id
    and the P2WSH address of the answer, the NP2WSH address exactly when
    external is set and the server message exactly when it is not empty,
    before it released the client. *)
Theorem loopIn_returns_nil_after_help_or_accepted_swap ctx :
  (loopIn ctx).2 = None →
  (amount_text ctx = None
   ∧ (loopIn ctx).1 = [EvShowCommandHelp "in"]
   ∧ ShowCommandHelp ctx "in" = None)
  ∨ ∃ client req resp,
      getClient ctx = Ok client
      ∧ EvLoopIn req ∈ (loopIn ctx).1
      ∧ LoopIn client req = Ok resp
      ∧ EvPrint ("Swap initiated" +:+ nl) ∈ (loopIn ctx).1
      ∧ EvPrint ("ID:           " +:+ Id resp +:+ nl) ∈ (loopIn ctx).1
      ∧ EvPrint ("HTLC address (P2WSH): " +:+ HtlcAddressP2Wsh resp +:+ nl)
        ∈ (loopIn ctx).1
      ∧ (EvPrint ("HTLC address (NP2WSH): " +:+ HtlcAddressNp2Wsh resp +:+ nl)
         ∈ (loopIn ctx).1 ↔ ctx_Bool ctx "external" = true)
      ∧ (EvPrint ("Server message: " +:+ ServerMessage resp +:+ nl)
         ∈ (loopIn ctx).1 ↔ ServerMessage resp ≠ EmptyString)
      ∧ last (loopIn ctx).1 = Some EvCleanup.
Proof.
  unfold amount_text. cases_of_loopIn ctx; intros Hnil; try discriminate Hnil.
  all: try (left; by split_and!).
  all: right; eexists _, _, _; split_and!; [done|listed|done|listed|listed|listed|..];
    [| |reflexivity].
  all: try match goal with
           | Hmsg : bool_decide _ = _ |- _ =>
               first [ apply bool_decide_eq_true in Hmsg
                     | apply bool_decide_eq_false in Hmsg ]
           end.
  all: split;
    [ intros Hin; first [done | exfalso; unfold nl in Hin; member Hin]
    | intros ?; first [listed | done] ].
Qed.

End Command.

Import Examples.

#[local] Existing Instance looprpc_model.

Lemma loopIn_swap_follows_an_accepted_quote_witness :
  ∃ client quoteReq quote after,
    getClient ctx_plain = Ok client
    ∧ (loopIn ctx_plain).1
      = [EvGetClient; EvGetLoopInQuote quoteReq;
         EvDisplayInDetails quoteReq quote (ctx_Bool ctx_plain "verbose");
         EvLoopIn (H := looprpc_model) request_plain] ++ after
    ∧ (∀ ev, ev ∈ after → ev = EvCleanup ∨ ∃ text, ev = EvPrint text)
    ∧ GetLoopInQuote client quoteReq = Ok quote
    ∧ displayInDetails quoteReq quote (ctx_Bool ctx_plain "verbose") = None
    ∧ (ExternalHtlc quoteReq = true
       ∨ HtlcPublishFeeSat quote ≠ MinerFeeEstimationFailed)
    ∧ request_plain
      = {| ReqAmt := Amt quoteReq;
           MaxMinerFee := maxMinerFee (getInLimits quote);
           MaxSwapFee := maxSwapFee (getInLimits quote);
           ReqExternalHtlc := ExternalHtlc quoteReq;
           HtlcConfTarget := ConfTarget quoteReq;
           Label := ctx_String ctx_plain labelFlag_Name;
           Initiator := defaultInitiator;
           LastHop := LoopInLastHop quoteReq;
           RouteHints := QuoteRouteHints quote |}
    ∧ labels_Validate (Label request_plain) = None.
Proof.
  apply (loopIn_swap_follows_an_accepted_quote (H := looprpc_model)
           ctx_plain request_plain).
  by apply (list_elem_of_lookup_2 _ 3%nat).
Defined.

Lemma loopIn_exclusive_flags_never_reach_the_daemon_witness :
  (∀ ev, ev ∈ (loopIn ctx_private_with_hints).1 →
     ev = EvShowCommandHelp "in" ∨ ev = EvGetClient ∨ ev = EvCleanup)
  ∧ ((loopIn ctx_private_with_hints).2 = None →
     (loopIn ctx_private_with_hints).1
     = [EvShowCommandHelp "in"])
  ∧ (ctx_Bool ctx_private_with_hints "external" = true →
     to_int32 (ctx_Uint64 ctx_private_with_hints confTargetFlag_Name) ≠ 0 →
     EvCleanup ∈ (loopIn ctx_private_with_hints).1 →
     (loopIn ctx_private_with_hints).2
     = Some ErrExternalAndConfTarget).
Proof.
  apply (loopIn_exclusive_flags_never_reach_the_daemon (H := looprpc_model)
           ctx_private_with_hints).
  right. split; vm_compute; reflexivity.
Defined.

Lemma loopIn_quote_request_is_made_of_the_flags_witness :
  ∃ req : QuoteRequest string,
    EvGetLoopInQuote req ∈ (loopIn ctx_external).1
    ∧ (∃ text, amount_text ctx_external = Some text
               ∧ parseAmt text = Ok (Amt req))
    ∧ ConfTarget req = 0
    ∧ ExternalHtlc req = true.
Proof.
  exists {| Amt := 500000; ConfTarget := 0; ExternalHtlc := true;
            LoopInLastHop := None; LoopInRouteHints := []; Private := false |}.
  assert (EvGetLoopInQuote
            {| Amt := 500000; ConfTarget := 0; ExternalHtlc := true;
               LoopInLastHop := None; LoopInRouteHints := []; Private := false |}
          ∈ (loopIn ctx_external).1) as Hin.
  { by apply (list_elem_of_lookup_2 _ 1%nat). }
  split; [exact Hin|].
  destruct (loopIn_quote_request_is_made_of_the_flags (H := looprpc_model)
              ctx_external _ Hin) as (Hamt & _ & _ & Hexternal & Hzero & _).
  split_and!; [exact Hamt|by apply Hzero|exact Hexternal].
Defined.

Lemma loopIn_external_accepts_conf_target_multiple_of_2_32_witness :
  ctx_Uint64 ctx_external confTargetFlag_Name ≠ 0
  ∧ (loopIn ctx_external).2 ≠ Some ErrExternalAndConfTarget
  ∧ ∃ rest,
      (loopIn ctx_external).1
      = EvGetClient
        :: EvGetLoopInQuote
             {| Amt := 500000; ConfTarget := 0; ExternalHtlc := true;
                LoopInLastHop := None; LoopInRouteHints := [];
                Private := ctx_Bool ctx_external privateFlag_Name |}
        :: rest.
Proof.
  apply (loopIn_external_accepts_conf_target_multiple_of_2_32 (H := looprpc_model)
           ctx_external 1 "500000" 500000 tt).
  - reflexivity.
  - reflexivity.
  - lia.
  - reflexivity.
  - reflexivity.
  - reflexivity.
  - reflexivity.
  - reflexivity.
  - reflexivity.
Defined.

Lemma loopIn_releases_the_client_once_and_last_witness :
  ∃ client mid,
    getClient ctx_large = Ok client
    ∧ (loopIn ctx_large).1 = EvGetClient :: mid ++ [EvCleanup]
    ∧ (EvCleanup ∉ mid) ∧ (EvGetClient ∉ mid).
Proof.
  apply (proj1 (loopIn_releases_the_client_once_and_last (H := looprpc_model)
                  ctx_large)).
  by apply (list_elem_of_lookup_2 _ 2%nat).
Defined.

Lemma loopIn_fee_estimate_failure_stops_before_display_witness :
  ∃ client req quote,
    getClient ctx_large = Ok client
    ∧ (loopIn ctx_large).1 = [EvGetClient; EvGetLoopInQuote req; EvCleanup]
    ∧ GetLoopInQuote client req = Ok quote
    ∧ ExternalHtlc req = false
    ∧ HtlcPublishFeeSat quote = MinerFeeEstimationFailed.
Proof.
  apply (proj1 (loopIn_fee_estimate_failure_stops_before_display (H := looprpc_model)
                  ctx_large)).
  vm_compute. reflexivity.
Defined.

Lemma loopIn_returns_nil_after_help_or_accepted_swap_witness :
  (amount_text ctx_plain = None
   ∧ (loopIn ctx_plain).1 = [EvShowCommandHelp "in"]
   ∧ ShowCommandHelp ctx_plain "in" = None)
  ∨ ∃ client req resp,
      getClient ctx_plain = Ok client
      ∧ EvLoopIn req ∈ (loopIn ctx_plain).1
      ∧ LoopIn client req = Ok resp
      ∧ EvPrint ("Swap initiated" +:+ nl) ∈ (loopIn ctx_plain).1
      ∧ EvPrint ("ID:           " +:+ Id resp +:+ nl) ∈ (loopIn ctx_plain).1
      ∧ EvPrint ("HTLC address (P2WSH): " +:+ HtlcAddressP2Wsh resp +:+ nl)
        ∈ (loopIn ctx_plain).1
      ∧ (EvPrint ("HTLC address (NP2WSH): " +:+ HtlcAddressNp2Wsh resp +:+ nl)
         ∈ (loopIn ctx_plain).1 ↔ ctx_Bool ctx_plain "external" = true)
      ∧ (EvPrint ("Server message: " +:+ ServerMessage resp +:+ nl)
         ∈ (loopIn ctx_plain).1 ↔ ServerMessage resp ≠ EmptyString)
      ∧ last (loopIn ctx_plain).1 = Some EvCleanup.
Proof.
  apply (loopIn_returns_nil_after_help_or_accepted_swap (H := looprpc_model)
           ctx_plain).
  vm_compute. reflexivity.
Defined.

End CmdProofs.
